(** * ai-domain-search: the availability checker, the suggestion generator,
      the notification store and the notification poller

A shallow embedding of [Backend/app.py] (the HTTP API) and
[Backend/notifier.py] (the background poller).

Conventions of the embedding:
- a Python [str] is a [string]: the sequence of its code points, each
  below 256 (ASCII and Latin-1);
- a Python exception is a value of [exn]; code that can raise returns an
  [outcome];
- the world outside the process (the WHOIS provider, the mail transport,
  the database server, the clock) is an [oracle] whose answers are
  indexed by the number of external interactions made so far; every call
  answers, by returning or by raising; what the
  random generator draws and the order in which a [set] is iterated are
  arguments of the function that uses them;
- the body of a request is the JSON value [request.get_json()] returns;
- the notification table is the list of its rows. *)

From Stdlib Require Import ZArith Lia Ascii Permutation.
From stdpp Require Import base strings list gmap.

(** ** Exceptions and outcomes *)

(** The subclasses of Python's [Exception] that the two programs can meet.
    ([BaseException]s such as [KeyboardInterrupt] are outside the model.) *)
Inductive exn : Type :=
  | TimeoutException
  | ConnectError
  | JSONDecodeError
  | AttributeError
  | ValueError
  | SMTPException
  | OperationalError.

Inductive outcome (A : Type) : Type :=
  | Returned (a : A)
  | Raised (e : exn).
Arguments Returned {A} a.
Arguments Raised {A} e.

#[export] Instance outcome_ret : MRet outcome := @Returned.
#[export] Instance outcome_bind : MBind outcome := λ A B f m,
  match m with
  | Returned a => f a
  | Raised e => Raised e
  end.

(** [try: body except Exception: handler] *)
Definition try_except {A} (body : outcome A) (handler : exn → outcome A) : outcome A :=
  match body with
  | Returned a => Returned a
  | Raised e => handler e
  end.

(** ** Python strings *)

Module PyStr.

(** [str.isspace] on one code point below 256. *)
Definition isspace (c : ascii) : bool :=
  let n := nat_of_ascii c in
  ((9 <=? n) && (n <=? 13)) || ((28 <=? n) && (n <=? 32))
  || (n =? 133) || (n =? 160).

(** [str.lower] on one code point below 256: A-Z, and the Latin-1 capitals
    (all of U+00C0..U+00DE but the multiplication sign U+00D7). *)
Definition lower_char (c : ascii) : ascii :=
  let n := nat_of_ascii c in
  if ((65 <=? n) && (n <=? 90))
     || ((192 <=? n) && (n <=? 222) && negb (n =? 215))
  then ascii_of_nat (n + 32)
  else c.

Fixpoint lower (s : string) : string :=
  match s with
  | EmptyString => EmptyString
  | String c s' => String (lower_char c) (lower s')
  end.

Fixpoint lstrip (s : string) : string :=
  match s with
  | EmptyString => EmptyString
  | String c s' => if isspace c then lstrip s' else s
  end.

Fixpoint rstrip (s : string) : string :=
  match s with
  | EmptyString => EmptyString
  | String c s' =>
      match rstrip s' with
      | EmptyString => if isspace c then EmptyString else String c EmptyString
      | t => String c t
      end
  end.

Definition strip (s : string) : string := rstrip (lstrip s).

(** Truthiness of a [str]: [not s] holds of the empty string only. *)
Definition is_empty (s : string) : bool :=
  match s with EmptyString => true | _ => false end.

(** [x or ""] where [x] is [None] or a [str]. *)
Definition or_empty (x : option string) : string := default "" x.

Fixpoint filter_chars (keep : ascii → bool) (s : string) : string :=
  match s with
  | EmptyString => EmptyString
  | String c s' =>
      if keep c then String c (filter_chars keep s') else filter_chars keep s'
  end.

End PyStr.

(** ** Regular expressions, as far as [re.match] and [re.sub] are used *)

Module Re.

Inductive regex : Type :=
  | Void                      (* matches nothing *)
  | Eps                       (* the empty string *)
  | Chr (c : ascii)           (* a literal character *)
  | NotChr (c : ascii)        (* [^c] *)
  | Cat (r1 r2 : regex)       (* r1r2 *)
  | Alt (r1 r2 : regex)       (* r1|r2 *)
  | Plus (r : regex).         (* r+ *)

Fixpoint nullable (r : regex) : bool :=
  match r with
  | Void => false
  | Eps => true
  | Chr _ => false
  | NotChr _ => false
  | Cat r1 r2 => nullable r1 && nullable r2
  | Alt r1 r2 => nullable r1 || nullable r2
  | Plus r => nullable r
  end.

(** Brzozowski derivative: what remains of [r] after reading [a]. *)
Fixpoint deriv (a : ascii) (r : regex) : regex :=
  match r with
  | Void => Void
  | Eps => Void
  | Chr c => if Ascii.eqb a c then Eps else Void
  | NotChr c => if Ascii.eqb a c then Void else Eps
  | Cat r1 r2 =>
      if nullable r1
      then Alt (Cat (deriv a r1) r2) (deriv a r2)
      else Cat (deriv a r1) r2
  | Alt r1 r2 => Alt (deriv a r1) (deriv a r2)
  | Plus r => Alt (deriv a r) (Cat (deriv a r) (Plus r))
  end.

(** [re.match(r, s)] is truthy: some prefix of [s] matches [r]. *)
Fixpoint match_prefix (r : regex) (s : string) : bool :=
  nullable r
  || match s with
     | EmptyString => false
     | String a s' => match_prefix (deriv a r) s'
     end.

(** The language of a regular expression. *)
Inductive matches : regex → string → Prop :=
  | m_eps : matches Eps ""
  | m_chr c : matches (Chr c) (String c "")
  | m_notchr c d : d ≠ c → matches (NotChr c) (String d "")
  | m_cat r1 r2 s1 s2 :
      matches r1 s1 → matches r2 s2 → matches (Cat r1 r2) (s1 +:+ s2)
  | m_alt_l r1 r2 s : matches r1 s → matches (Alt r1 r2) s
  | m_alt_r r1 r2 s : matches r2 s → matches (Alt r1 r2) s
  | m_plus_one r s : matches r s → matches (Plus r) s
  | m_plus_more r s1 s2 :
      matches r s1 → matches (Plus r) s2 → matches (Plus r) (s1 +:+ s2).

End Re.

(** ** Parsed JSON *)

(** What [r.json()] returns. An object is kept as the list of its bindings;
    [dict.get] finds the binding of a key. *)
#[local] Unset Elimination Schemes.
Inductive json : Type :=
  | JNull
  | JBool (b : bool)
  | JNum (n : Z)
  | JStr (s : string)
  | JArr (items : list json)
  | JObj (fields : list (string * json)).
#[local] Set Elimination Schemes.

Fixpoint assoc {A} (k : string) (l : list (string * A)) : option A :=
  match l with
  | [] => None
  | (k', v) :: l' => if String.eqb k k' then Some v else assoc k l'
  end.

(** [d.get(key, dflt)]: only a [dict] has [get]. *)
Definition py_get (d : json) (key : string) (dflt : json) : outcome json :=
  match d with
  | JObj fields => Returned (default dflt (assoc key fields))
  | _ => Raised AttributeError
  end.

(** [v.strip().lower()]: only a [str] has [strip]. *)
Definition py_strip_lower (v : json) : outcome string :=
  match v with
  | JStr s => Returned (PyStr.lower (PyStr.strip s))
  | _ => Raised AttributeError
  end.

(** [v == lit] for a string literal [lit]: no exception, whatever [v] is. *)
Definition py_eq_str (v : json) (lit : string) : bool :=
  match v with
  | JStr s => String.eqb s lit
  | _ => false
  end.

(** Truthiness of a parsed value: [None], [False], [0], [""], [[]] and
    [{}] are falsy, everything else is truthy. (Numbers are integers here;
    a float is falsy when it is zero, like an integer.) *)
Definition py_truthy (v : json) : bool :=
  match v with
  | JNull => false
  | JBool b => b
  | JNum n => negb (n =? 0)%Z
  | JStr s => negb (PyStr.is_empty s)
  | JArr [] => false
  | JArr (_ :: _) => true
  | JObj [] => false
  | JObj (_ :: _) => true
  end.

(** [a or b] *)
Definition py_or (a b : json) : json := if py_truthy a then a else b.

(** ** The WHOIS provider seen from the client *)

(** One [client.get(url)] followed by [r.json()]: the request raises
    (time-out after 10 s, connection failure, ...), or a response arrives
    whose body is JSON or is not. *)
Inductive http_result : Type :=
  | HttpRaises (e : exn)
  | HttpBody (body : option json).

Definition response_json (r : http_result) : outcome json :=
  match r with
  | HttpRaises e => Raised e
  | HttpBody None => Raised JSONDecodeError
  | HttpBody (Some j) => Returned j
  end.

(** A well-formed provider reply carrying the status [status]. *)
Definition whois_reply (status : string) : http_result :=
  HttpBody (Some (JObj [("DomainInfo",
                         JObj [("domainAvailability", JStr status)])])).

(** ** The notification table, the outside world and the effect monad *)

(** One row of [domain_notifications] (the schema of [init_db]). *)
Record row : Type := {
  row_id : nat;                     (* id INT AUTO_INCREMENT PRIMARY KEY *)
  domain_name : string;
  email : string;
  notified : bool;                  (* DEFAULT FALSE *)
  created_at : Z;                   (* DEFAULT CURRENT_TIMESTAMP *)
  last_checked_at : option Z        (* TIMESTAMP NULL *)
}.

(** What the process does that can be observed from outside, in order. *)
Inductive event : Type :=
  | EvCheck (rid : nat) (domain : string) (available : bool)
  | EvSend (rid : nat) (to domain : string) (success : bool)
  | EvUpdate (rid : nat)
  | EvInsert (domain to : string)
  | EvSleep (seconds : Z).

(** The answers of the outside world; the first argument is the number of
    external interactions made before the one that is answered. *)
Record oracle : Type := {
  http_get : nat → string → http_result;      (* GET url *)
  smtp_send : nat → string → string → outcome unit; (* starttls, login, send *)
  db_ok : nat → bool;                         (* does this database call succeed *)
  now : nat → Z                               (* CURRENT_TIMESTAMP *)
}.

(** [table] is what is committed; [txn] is the working copy of the open
    transaction of the current connection ([autocommit] is off), if any. *)
Record world : Type := {
  table : list row;
  txn : option (list row);
  next_id : nat;
  tick : nat;
  trace : list event
}.

Definition M (A : Type) : Type := world → outcome A * world.

#[export] Instance M_ret : MRet M := λ A a w, (Returned a, w).
#[export] Instance M_bind : MBind M := λ A B f m w,
  match m w with
  | (Returned a, w') => f a w'
  | (Raised e, w') => (Raised e, w')
  end.

(** [try: body except Exception as e: handler e] *)
Definition try_exceptM {A} (body : M A) (handler : exn → M A) : M A := λ w,
  match body w with
  | (Returned a, w') => (Returned a, w')
  | (Raised e, w') => handler e w'
  end.

(** [try: body finally: cleanup]; an exception of [cleanup] wins. *)
Definition try_finallyM {A} (body : M A) (cleanup : M unit) : M A := λ w,
  match body w with
  | (r, w') =>
      match cleanup w' with
      | (Returned _, w'') => (r, w'')
      | (Raised e, w'') => (Raised e, w'')
      end
  end.

Definition raiseM {A} (e : exn) : M A := λ w, (Raised e, w).

(** A computation that touches nothing outside the process. *)
Definition pureM {A} (o : outcome A) : M A := λ w, (o, w).

(** [for x in xs: body x] *)
Fixpoint for_each {A} (xs : list A) (body : A → M unit) : M unit :=
  match xs with
  | [] => mret ()
  | x :: xs' => body x ;; for_each xs' body
  end.

Definition log (e : event) : M unit := λ w,
  (Returned (),
   {| table := table w; txn := txn w; next_id := next_id w; tick := tick w;
      trace := trace w ++ [e] |}).

Definition bump (w : world) : world :=
  {| table := table w; txn := txn w; next_id := next_id w; tick := S (tick w);
     trace := trace w |}.

Definition set_txn (t : option (list row)) (w : world) : world :=
  {| table := table w; txn := t; next_id := next_id w; tick := tick w;
     trace := trace w |}.

(** The rows the open connection sees. *)
Definition view (w : world) : list row := default (table w) (txn w).

Definition set_notified (r : row) : row :=
  {| row_id := row_id r; domain_name := domain_name r; email := email r;
     notified := true; created_at := created_at r;
     last_checked_at := last_checked_at r |}.

(** [SELECT * FROM domain_notifications WHERE notified = 0] *)
Definition pending_rows (t : list row) : list row :=
  filter (λ r, notified r = false) t.

(** [UPDATE domain_notifications SET notified = 1 WHERE id = i] *)
Definition mark_notified (i : nat) (t : list row) : list row :=
  (λ r, if decide (row_id r = i) then set_notified r else r) <$> t.

(** [INSERT INTO domain_notifications (domain_name, email, notified)
     VALUES (d, e, False)] with the defaults of the schema. *)
Definition new_row (i : nat) (d e : string) (ts : Z) : row :=
  {| row_id := i; domain_name := d; email := e; notified := false;
     created_at := ts; last_checked_at := None |}.

Module Db.
Section WithOracle.
Variable O : oracle.

(** Every database call is one external interaction; a failing one raises
    and changes nothing. *)
Definition call {A} (run : world → A * world) : M A := λ w,
  if db_ok O (tick w)
  then let '(a, w') := run (bump w) in (Returned a, w')
  else (Raised OperationalError, bump w).

(** [pymysql.connect(...)] *)
Definition connect : M unit :=
  call (λ w, ((), set_txn None w)).

(** [cursor.execute("SELECT ... WHERE notified = 0"); cursor.fetchall()] *)
Definition select_pending : M (list row) :=
  call (λ w, (pending_rows (view w), w)).

(** [cursor.execute("UPDATE ... SET notified = 1 WHERE id = %s", (i,))] *)
Definition execute_update (i : nat) : M unit :=
  call (λ w, ((), set_txn (Some (mark_notified i (view w))) w)).

(** [cursor.execute("INSERT ...", (d, e, False))]; the id is consumed even
    if the transaction is rolled back later. *)
Definition execute_insert (d e : string) : M unit :=
  call (λ w,
    ((), {| table := table w;
            txn := Some (view w ++ [new_row (next_id w) d e (now O (tick w))]);
            next_id := S (next_id w); tick := tick w; trace := trace w |})).

(** [conn.commit()] *)
Definition commit : M unit :=
  call (λ w,
    ((), {| table := view w; txn := None; next_id := next_id w;
            tick := tick w; trace := trace w |})).

(** [conn.rollback()] *)
Definition rollback : M unit :=
  call (λ w, ((), set_txn None w)).

(** [conn.close()]: never raises; an uncommitted transaction is lost. *)
Definition close : M unit := λ w, (Returned (), set_txn None (bump w)).

End WithOracle.
End Db.

(** ** Configuration read from the environment *)

(** [os.environ] once [load_dotenv()] has run. *)
Abbreviation environ := (gmap string string).

(** [os.getenv(k)] *)
Definition getenv (env : environ) (k : string) : option string := env !! k.

(** [os.getenv(k, dflt)] *)
Definition getenv_default (env : environ) (k dflt : string) : string :=
  default dflt (env !! k).

(** [f"{x}"] of a value that is a [str] or [None]. *)
Definition format_opt (x : option string) : string := default "None" x.

Definition whois_url (key domain : string) : string :=
  "https://domain-availability.whoisxmlapi.com/api/v1?apiKey=" +:+ key
  +:+ "&domainName=" +:+ domain +:+ "&outputFormat=JSON".

(** ** notifier.py *)

Module Notifier.

Record config : Type := {
  WHOISXML_API_KEY : option string;
  DB_HOST : option string;
  DB_USER : option string;
  DB_PASSWORD : option string;
  DB_NAME : option string;
  EMAIL_HOST : option string;
  EMAIL_PORT : Z;
  EMAIL_USER : option string;
  EMAIL_PASSWORD : option string
}.

(** The module-level assignments, lines 13-23. [py_int] is Python's
    [int] on a [str] ([None] when it raises [ValueError]). *)
Definition load_config (py_int : string → option Z) (env : environ)
  : outcome config :=
  port ← match getenv env "EMAIL_PORT" with
         | None => Returned 587%Z
         | Some s =>
             match py_int s with
             | Some n => Returned n
             | None => Raised ValueError
             end
         end;
  mret {| WHOISXML_API_KEY := getenv env "WHOISXML_API_KEY";
          DB_HOST := getenv env "DB_HOST";
          DB_USER := getenv env "DB_USER";
          DB_PASSWORD := getenv env "DB_PASSWORD";
          DB_NAME := getenv env "DB_NAME";
          EMAIL_HOST := getenv env "EMAIL_HOST";
          EMAIL_PORT := port;
          EMAIL_USER := getenv env "EMAIL_USER";
          EMAIL_PASSWORD := getenv env "EMAIL_PASSWORD" |}.

(** The [try] block of [check_domain_availability], lines 43-47. *)
Definition check_body (r : http_result) : outcome bool :=
  data ← response_json r;
  info ← py_get data "DomainInfo" (JObj []);
  status ← py_get info "domainAvailability" (JStr "UNKNOWN");
  mret (py_eq_str status "AVAILABLE").

(** The [try] block with its [except Exception: return False]. *)
Definition check_response (r : http_result) : outcome bool :=
  try_except (check_body r) (λ _, Returned false).

(** The sleep between two cycles, line 121: [time.sleep(30)]. *)
Definition sleep_seconds (cfg : config) (env : environ) : Z := 30.

Section WithOracle.
Variable O : oracle.
Variable cfg : config.

Definition check_domain_availability (domain : string) : M bool := λ w,
  let url := whois_url (format_opt (WHOISXML_API_KEY cfg)) domain in
  (check_response (http_get O (tick w) url), bump w).

(** Lines 55-73: building the message does not fail; the SMTP session
    is inside [try], [return True] after it, [return False] in
    [except Exception]. *)
Definition send_email_notification (to_email domain : string) : M bool := λ w,
  (try_except (smtp_send O (tick w) to_email domain ;; mret true)
              (λ _, Returned false),
   bump w).

(** The body of the [for record in records] loop, lines 92-110. *)
Definition process_record (record : row) : M unit :=
  let domain := domain_name record in
  let email := email record in
  available ← check_domain_availability domain;
  log (EvCheck (row_id record) domain available) ;;
  if (available : bool) then
    success ← send_email_notification email domain;
    log (EvSend (row_id record) email domain success) ;;
    if (success : bool) then
      Db.execute_update O (row_id record) ;;
      Db.commit O ;;
      log (EvUpdate (row_id record))
    else mret ()
  else mret ().

Definition check_and_notify : M unit :=
  Db.connect O ;;
  records ← Db.select_pending O;
  match records return M unit with
  | [] => Db.close
  | _ => for_each records process_record ;; Db.close
  end.

(** [while True: check_and_notify(); time.sleep(30)], unrolled [n]
    times. *)
Fixpoint main_loop (env : environ) (n : nat) : M unit :=
  match n with
  | 0 => mret ()
  | S n' =>
      check_and_notify ;;
      log (EvSleep (sleep_seconds cfg env)) ;;
      main_loop env n'
  end.

End WithOracle.

(** Starting the process: the configuration is read, then the loop runs. *)
Definition startup (py_int : string → option Z) (env : environ)
  : outcome config := load_config py_int env.

End Notifier.

(** ** app.py *)

(** [random.choice(seq)] when the generator draws the number [r]. *)
Definition random_choice (seq : list string) (r : nat) : string :=
  default "" (seq !! (r mod length seq)).

(** [xs[:limit]] *)
Definition slice_to {A} (limit : Z) (xs : list A) : list A :=
  if (0 <=? limit)%Z
  then take (Z.to_nat limit) xs
  else take (length xs - Z.to_nat (- limit)) xs.

Module App.

Record config : Type := {
  WHOISXML_API_KEY : string;
  DB_HOST : string;
  DB_USER : string;
  DB_PASSWORD : string;
  DB_NAME : string;
  APP_NAME : string
}.

(** Truthiness of a value that is [None] or a [str]. *)
Definition truthy (x : option string) : bool :=
  match x with
  | Some s => negb (PyStr.is_empty s)
  | None => false
  end.

(** Lines 21-29. *)
Definition load_config (env : environ) : outcome config :=
  let key := getenv env "WHOISXML_API_KEY" in
  if negb (truthy key)
  then Raised ValueError      (* "WHOISXML_API_KEY missing in .env" *)
  else Returned {| WHOISXML_API_KEY := PyStr.or_empty key;
                   DB_HOST := getenv_default env "DB_HOST" "localhost";
                   DB_USER := getenv_default env "DB_USER" "root";
                   DB_PASSWORD := getenv_default env "DB_PASSWORD" "";
                   DB_NAME := getenv_default env "DB_NAME" "domain_saas";
                   APP_NAME := getenv_default env "APP_NAME"
                                 "Domain Suggester SaaS" |}.

(** What [tldextract.extract] returns. *)
Record ExtractResult : Type := {
  subdomain : string;
  domain : string;
  suffix : string
}.

Inductive input_class : Type := full_domain | brand_keyword.

(** [data.get("DomainInfo", {}).get("domainAvailability", "UNKNOWN")
      .strip().lower() == "available"], lines 89-91 and 142-145. *)
Definition status_is_available (data : json) : outcome bool :=
  info ← py_get data "DomainInfo" (JObj []);
  status ← py_get info "domainAvailability" (JStr "UNKNOWN");
  s ← py_strip_lower status;
  mret (String.eqb s "available").

(** The [try] block of [check_domain_availability], lines 86-91. *)
Definition check_body (r : http_result) : outcome bool :=
  data ← response_json r;
  status_is_available data.

(** The [try] block with its [except Exception: return False]. *)
Definition check_response (r : http_result) : outcome bool :=
  try_except (check_body r) (λ _, Returned false).

Definition is_a_z_0_9 (c : ascii) : bool :=
  let n := nat_of_ascii c in
  ((97 <=? n) && (n <=? 122)) || ((48 <=? n) && (n <=? 57)).

(** [re.sub(r'[^a-z0-9]', '', w.strip().lower())]: every character
    outside the class is replaced by nothing. *)
Definition sanitize_word (w : string) : string :=
  PyStr.filter_chars is_a_z_0_9 (PyStr.lower (PyStr.strip w)).

Definition PREFIXES : list string := ["get"; "try"; "go"; "my"; "join"; "the"].
Definition SUFFIXES : list string :=
  ["app"; "hq"; "site"; "online"; "tech"; "co"; "now"].
Definition TLDS : list string := [".com"; ".io"; ".co"; ".xyz"; ".net"].

(** [ideas.add(x)] *)
Definition add (x : string) (ideas : gset string) : gset string :=
  ideas ∪ {[x]}.

(** The set [ideas] when line 117 is reached; [r] is what the random
    generator draws for [random.choice(SUFFIXES)]. *)
Definition build_ideas (k : string) (r : nat) : gset string :=
  let ideas := ∅ in
  let ideas := foldl (λ ideas pre, add (pre +:+ k) ideas) ideas PREFIXES in
  let ideas :=
    foldl (λ ideas suf, add (k +:+ "-" +:+ suf) (add (k +:+ suf) ideas))
          ideas SUFFIXES in
  let ideas := add k ideas in
  let ideas := add (k +:+ random_choice SUFFIXES r) ideas in
  foldl (λ ideas pre,
           foldl (λ ideas suf, add (pre +:+ k +:+ suf) ideas)
                 ideas (take 3 SUFFIXES))
        ideas (take 3 PREFIXES).

(** [order] is the order in which Python iterates over a set;
    [rnd n] is the [n]-th number the random generator draws. *)
Definition generate_domain_ideas (order : gset string → list string)
    (rnd : nat → nat) (keyword : string) (limit : Z) : list string :=
  let k := sanitize_word keyword in
  let ideas := build_ideas k (rnd 0) in
  let ideas := slice_to limit (order ideas) in
  imap (λ i name, name +:+ random_choice TLDS (rnd (S i))) ideas.

Record suggestion : Type := { fqdn : string; available : bool }.

(** Line 125. *)
Definition alternatives_of (ext : ExtractResult) : list string :=
  let base := PyStr.lower (domain ext) in
  (λ tld, base +:+ tld) <$> filter (λ tld, tld ≠ "." +:+ suffix ext) TLDS.

(** The loop of lines 137-148 over [zip(alternatives, responses)]. *)
Fixpoint collect_results (pairs : list (string * http_result))
  : list suggestion :=
  match pairs with
  | [] => []
  | (alt, resp) :: rest =>
      match resp with
      | HttpRaises _ => collect_results rest          (* continue *)
      | HttpBody _ =>
          match check_body resp with
          | Returned b => {| fqdn := alt; available := b |} :: collect_results rest
          | Raised _ => collect_results rest          (* except: pass *)
          end
      end
  end.

(** Lines 136-154, given what [asyncio.gather] returned. *)
Definition results_of (alternatives : list string)
    (responses : list http_result) : list suggestion :=
  let results := collect_results (zip alternatives responses) in
  match results with
  | [] => (λ alt, {| fqdn := alt; available := false |}) <$> alternatives
  | _ => results
  end.

(** [jsonify(payload), status_code] *)
Record response : Type := {
  status_code : nat;
  payload : list (string * string)
}.

(** [r"[^@]+@[^@]+\.[^@]+"] *)
Definition EMAIL_RE : Re.regex :=
  Re.Cat (Re.Plus (Re.NotChr "@"))
    (Re.Cat (Re.Chr "@")
       (Re.Cat (Re.Plus (Re.NotChr "@"))
          (Re.Cat (Re.Chr ".") (Re.Plus (Re.NotChr "@"))))).

(** Lines 216-218 of [POST /notify]: [data], then [domain] and [email].
    Only a [dict] has [get] and only a [str] has [strip]: a body that is
    truthy and not an object, or a field that is truthy and not a string,
    raises [AttributeError]. *)
Definition notify_fields (body : json) : outcome (string * string) :=
  let data := py_or body (JObj []) in
  v ← py_get data "domain" JNull;
  domain ← py_strip_lower (py_or v (JStr ""));
  v ← py_get data "email" JNull;
  email ← py_strip_lower (py_or v (JStr ""));
  mret (domain, email).

(** Lines 169-170 of [POST /check]: [data], then [user_input]. *)
Definition check_input (body : json) : outcome string :=
  let data := py_or body (JObj []) in
  v ← py_get data "input_text" JNull;
  py_strip_lower (py_or v (JStr "")).

Section WithOracle.
Variable O : oracle.
Variable cfg : config.
Variable extract : string → ExtractResult.    (* tldextract.extract *)

(** [init_db()], lines 50-67: [CREATE TABLE IF NOT EXISTS] leaves the
    rows of an existing table alone. *)
Definition init_db : M unit :=
  Db.connect O ;;
  try_finallyM (Db.call O (λ w, ((), w)) ;; Db.commit O) Db.close.

Definition classify_input (user_input : string) : input_class :=
  let ext := extract user_input in
  if PyStr.is_empty (suffix ext) then brand_keyword else full_domain.

Definition check_domain_availability (domain : string) : M bool := λ w,
  let url := whois_url (WHOISXML_API_KEY cfg) domain in
  (check_response (http_get O (tick w) url), bump w).

(** [asyncio.gather] with [return_exceptions=True]: one request
    per url, the results in the order of the urls. *)
Definition gather (urls : list string) : M (list http_result) := λ w,
  (Returned (imap (λ i url, http_get O (tick w + i) url) urls),
   Nat.iter (length urls) bump w).

Definition suggest_alternatives (domain : string) : M (list suggestion) :=
  let ext := extract domain in
  let alternatives := alternatives_of ext in
  responses ← gather (whois_url (WHOISXML_API_KEY cfg) <$> alternatives);
  mret (results_of alternatives responses).

(** Lines 220-243 of [POST /notify], with [domain] and [email] in hand. *)
Definition store_subscription (domain email : string) : M response :=
  if PyStr.is_empty domain || PyStr.is_empty email then
    mret {| status_code := 400;
            payload := [("error", "domain and email required")] |}
  else if negb (Re.match_prefix EMAIL_RE email) then
    mret {| status_code := 400; payload := [("error", "invalid email")] |}
  else
    Db.connect O ;;
    failed ← try_finallyM
               (try_exceptM
                  (Db.execute_insert O domain email ;;
                   Db.commit O ;;
                   log (EvInsert domain email) ;;
                   mret None)
                  (λ _, Db.rollback O ;;
                        mret (Some {| status_code := 500;
                                      payload := [("error", "db error")] |})))
               Db.close;
    match failed with
    | Some r => mret r
    | None =>
        mret {| status_code := 200;
                payload :=
                  [("message", "You will be notified when " +:+ domain
                               +:+ " becomes available.");
                   ("domain", domain); ("email", email)] |}
    end.

(** The view function of [POST /notify], lines 211-243. [body] is what
    [request.get_json()] returned: any JSON value, [JNull] for [None]. (A
    request that the framework turns down inside [get_json], its body not
    being JSON, does not get past line 216.) *)
Definition subscribe_for_notification (body : json) : M response :=
  fields ← pureM (notify_fields body);
  store_subscription fields.1 fields.2.

(** How the framework answers: an exception that leaves the view
    function becomes a 500 response. *)
Definition dispatch (view_function : M response) (w : world)
  : response * world :=
  match view_function w with
  | (Returned r, w') => (r, w')
  | (Raised _, w') =>
      ({| status_code := 500; payload := [] |}, set_txn None w')
  end.

End WithOracle.

(** Importing the module: the configuration is read and checked, then
    [init_db()] runs (line 70). *)
Definition startup (O : oracle) (env : environ) : M config :=
  match load_config env with
  | Raised e => raiseM e
  | Returned cfg => init_db O ;; mret cfg
  end.

(** [jsonify(body), code]. The [message] field of the bodies of [/check],
    a sentence built from the domain behind a pictogram, is left out. *)
Record json_response : Type := {
  code : nat;
  body : json
}.

(** [{"fqdn": ..., "available": ...}] *)
Definition suggestion_json (s : suggestion) : json :=
  JObj [("fqdn", JStr (fqdn s)); ("available", JBool (available s))].

Section CheckRoute.
Variable O : oracle.
Variable cfg : config.
Variable extract : string → ExtractResult.    (* tldextract.extract *)
Variable order : gset string → list string.  (* iteration over a set *)
Variable rnd : nat → nat.                    (* the random generator *)

(** The loop of lines 200-203: one check after the other, the results in
    the order of the suggestions. *)
Fixpoint check_each (domains : list string) : M (list suggestion) :=
  match domains with
  | [] => mret []
  | domain :: rest =>
      available ← check_domain_availability O cfg domain;
      results ← check_each rest;
      mret ({| fqdn := domain; available := available |} :: results)
  end.

(** Lines 171-208 of [POST /check], with [user_input] in hand. *)
Definition check_text (user_input : string) : M json_response :=
  if PyStr.is_empty user_input then
    mret {| code := 400; body := JObj [("error", JStr "input_text required")] |}
  else
    match classify_input extract user_input with
    | full_domain =>
        available ← check_domain_availability O cfg user_input;
        if (available : bool) then
          mret {| code := 200;
                  body := JObj [("status", JStr "available");
                                ("domain", JStr user_input)] |}
        else
          alternatives ← suggest_alternatives O cfg extract user_input;
          mret {| code := 200;
                  body := JObj [("status", JStr "unavailable");
                                ("domain", JStr user_input);
                                ("alternatives",
                                 JArr (suggestion_json <$> alternatives));
                                ("allow_notification", JBool true)] |}
    | brand_keyword =>
        let suggestions := generate_domain_ideas order rnd user_input 20 in
        results ← check_each suggestions;
        mret {| code := 200;
                body := JObj [("status", JStr "suggestions");
                              ("keyword", JStr user_input);
                              ("results", JArr (suggestion_json <$> results))] |}
    end.

(** The view function of [POST /check], lines 168-208. [body] is what
    [request.get_json()] returned: any JSON value, [JNull] for [None]. *)
Definition check_domain (body : json) : M json_response :=
  user_input ← pureM (check_input body);
  check_text user_input.

End CheckRoute.


End App.

(** ** Notions used to state the properties *)

(** The value a call returns, [dflt] standing for a call that raises. *)
Definition returned_or {A} (dflt : A) (o : outcome A) : A :=
  match o with
  | Returned a => a
  | Raised _ => dflt
  end.

(** Equality of two strings up to the case of the letters A-Z. *)
Definition ascii_fold (c : ascii) : ascii :=
  let n := nat_of_ascii c in
  if (65 <=? n) && (n <=? 90) then ascii_of_nat (n + 32) else c.

Fixpoint fold_case (s : string) : string :=
  match s with
  | EmptyString => EmptyString
  | String c s' => String (ascii_fold c) (fold_case s')
  end.

Definition eq_ignore_case (s t : string) : bool :=
  String.eqb (fold_case s) (fold_case t).

(** The row an event is about. *)
Definition event_row (ev : event) : option nat :=
  match ev with
  | EvCheck rid _ _ => Some rid
  | EvSend rid _ _ _ => Some rid
  | EvUpdate rid => Some rid
  | EvInsert _ _ => None
  | EvSleep _ => None
  end.

(** The rows a sequence of events is about. *)
Definition touched (evs : list event) : list nat := omap event_row evs.

(** The pauses, in seconds, among the events [evs]. *)
Definition sleeps (evs : list event) : list Z :=
  omap (λ ev, match ev with EvSleep secs => Some secs | _ => None end) evs.

(** [r'] is [r], but for [notified], which may have gone from false to
    true. *)
Definition same_but_notified (r r' : row) : Prop :=
  row_id r' = row_id r ∧ domain_name r' = domain_name r ∧ email r' = email r
  ∧ created_at r' = created_at r ∧ last_checked_at r' = last_checked_at r
  ∧ (notified r = true → notified r' = true).

(** The primary key: no two rows of a table share an id. *)
Definition primary_key (t : list row) : Prop := NoDup (row_id <$> t).

(** How the poller can leave one record. *)
Inductive verdict : Type :=
  | NotAvailable      (* the check said no, or failed *)
  | SendFailed        (* available, the mail was not sent *)
  | Notified          (* available, mail sent, row updated and committed *)
  | StoreFailed.      (* available, mail sent, the update or commit raised *)

Definition events_of (rec : row) (v : verdict) : list event :=
  let check b := EvCheck (row_id rec) (domain_name rec) b in
  let send b := EvSend (row_id rec) (email rec) (domain_name rec) b in
  match v with
  | NotAvailable => [check false]
  | SendFailed => [check true; send false]
  | Notified => [check true; send true; EvUpdate (row_id rec)]
  | StoreFailed => [check true; send true]
  end.

Definition table_after (rec : row) (v : verdict) (t : list row) : list row :=
  match v with
  | Notified => mark_notified (row_id rec) t
  | _ => t
  end.

(** [run_of rs t o t' evs]: going through the records [rs] from the table
    [t] ends with [o], leaves the table [t'] and does [evs]. *)
Inductive run_of : list row → list row → outcome unit → list row
                   → list event → Prop :=
  | run_done t : run_of [] t (Returned ()) t []
  | run_crash rec rs t :
      run_of (rec :: rs) t (Raised OperationalError) t (events_of rec StoreFailed)
  | run_step rec rs v t o t' evs :
      v ≠ StoreFailed →
      run_of rs (table_after rec v t) o t' evs →
      run_of (rec :: rs) t o t' (events_of rec v ++ evs).

(** One cycle: the store is unreachable and nothing happens, or the pending
    rows are gone through. *)
Definition cycle_of (t : list row) (o : outcome unit) (t' : list row)
    (evs : list event) : Prop :=
  (o = Raised OperationalError ∧ t' = t ∧ evs = [])
  ∨ run_of (pending_rows t) t o t' evs.

(** [n] cycles, a sleep after each; a cycle that raises ends the process. *)
Inductive loop_of (secs : Z) : nat → list row → outcome unit → list row
                               → list event → Prop :=
  | loop_zero t : loop_of secs 0 t (Returned ()) t []
  | loop_crash n t e t' evs :
      cycle_of t (Raised e) t' evs →
      loop_of secs (S n) t (Raised e) t' evs
  | loop_next n t t1 evs1 o t' evs :
      cycle_of t (Returned ()) t1 evs1 →
      loop_of secs n t1 o t' evs →
      loop_of secs (S n) t o t' (evs1 ++ EvSleep secs :: evs).

(** Every row of [t] with the id [rid] has [notified] set. *)
Definition notified_at (t : list row) (rid : nat) : Prop :=
  ∀ r, r ∈ t → row_id r = rid → notified r = true.

(** What the events [evs] may have done to a row: nothing but set
    [notified], and that only with an [EvUpdate] for the row. *)
Definition row_step (evs : list event) (r r' : row) : Prop :=
  same_but_notified r r'
  ∧ (notified r' ≠ notified r → EvUpdate (row_id r) ∈ evs).

(** The check and the send that precede the update of the row [r]. *)
Definition check_then_send (r : row) : list event :=
  [EvCheck (row_id r) (domain_name r) true;
   EvSend (row_id r) (email r) (domain_name r) true].

(** Every character of [s] satisfies [p]. *)
Fixpoint all_chars (p : ascii → bool) (s : string) : bool :=
  match s with
  | EmptyString => true
  | String c s' => p c && all_chars p s'
  end.

Definition not_dot (c : ascii) : bool := negb (Ascii.eqb c ".").

(** [s] has no [.] in it. *)
Definition dot_free (s : string) : bool := all_chars not_dot s.

(** [e] ends in [t]. *)
Definition ends_with (e t : string) : Prop := ∃ p, e = p +:+ t.

(** The part of [s] before its first [.]. *)
Fixpoint before_dot (s : string) : string :=
  match s with
  | EmptyString => EmptyString
  | String c s' => if Ascii.eqb c "." then EmptyString else String c (before_dot s')
  end.

(** The names [generate_domain_ideas] builds from the keyword [k], the one
    with the randomly chosen suffix left out. *)
Definition fixed_candidates (k : string) : list string :=
  ((λ pre, pre +:+ k) <$> App.PREFIXES)
  ++ (App.SUFFIXES ≫= λ suf, [k +:+ suf; k +:+ "-" +:+ suf])
  ++ [k]
  ++ (take 3 App.PREFIXES ≫= λ pre,
        (λ suf, pre +:+ k +:+ suf) <$> take 3 App.SUFFIXES).

(** One candidate of the alternative-suggestion flow: the entry it gets, if
    it gets one. *)
Definition entry_of (pair : string * http_result) : option App.suggestion :=
  match App.check_body pair.2 with
  | Returned b => Some {| App.fqdn := pair.1; App.available := b |}
  | Raised _ => None
  end.

(** Code points below 128. *)
Definition is_ascii (c : ascii) : bool := nat_of_ascii c <? 128.

Definition not_space (c : ascii) : bool := negb (PyStr.isspace c).

(** The fields of a request body: those of an object, none for a body
    that is missing, [null], [false], [0], [""] or [[]]. Any other body (a
    number other than 0, [true], a string or an array that is not empty) is
    not one a view function can read. *)
Definition body_fields (body : json) : option (list (string * json)) :=
  match body with
  | JObj fields => Some fields
  | JNull | JBool false | JNum 0 | JStr "" | JArr [] => Some []
  | _ => None
  end.

(** The text of the field [key]: that of a string, the empty text for a
    field that is missing or holds [null], [false], [0], [[]] or [{}]. A
    field with any other value has no text. *)
Definition field_text (fields : list (string * json)) (key : string)
  : option string :=
  match assoc key fields with
  | None => Some ""
  | Some (JStr s) => Some s
  | Some JNull | Some (JBool false) | Some (JNum 0)
  | Some (JArr []) | Some (JObj []) => Some ""
  | Some _ => None
  end.

(** The text a request carries under [key], if its body can be read. *)
Definition request_text (body : json) (key : string) : option string :=
  match body_fields body with
  | Some fields => field_text fields key
  | None => None
  end.

(** ** A small store and some outside worlds, to run the programs on *)

Definition example_row (i : nat) (d e : string) (n : bool) : row :=
  {| row_id := i; domain_name := d; email := e; notified := n;
     created_at := 0; last_checked_at := None |}.

Definition example_world (t : list row) : world :=
  {| table := t; txn := None; next_id := S (length t); tick := 0; trace := [] |}.

Definition example_notifier_config : Notifier.config :=
  {| Notifier.WHOISXML_API_KEY := Some "at_key";
     Notifier.DB_HOST := Some "localhost";
     Notifier.DB_USER := Some "root";
     Notifier.DB_PASSWORD := Some "";
     Notifier.DB_NAME := Some "domain_saas";
     Notifier.EMAIL_HOST := Some "smtp.test.com";
     Notifier.EMAIL_PORT := 587;
     Notifier.EMAIL_USER := Some "bot@test.com";
     Notifier.EMAIL_PASSWORD := Some "secret" |}.

(** Every domain is available, every mail is delivered, the store is up. *)
Definition obliging_oracle : oracle :=
  {| http_get := λ _ _, whois_reply "AVAILABLE";
     smtp_send := λ _ _ _, Returned ();
     db_ok := λ _, true;
     now := λ n, Z.of_nat n |}.

(** As [obliging_oracle], but the mail transport fails at the fourth
    external interaction. *)
Definition flaky_mail_oracle : oracle :=
  {| http_get := λ _ _, whois_reply "AVAILABLE";
     smtp_send := λ n _ _, if n =? 3 then Raised SMTPException else Returned ();
     db_ok := λ _, true;
     now := λ n, Z.of_nat n |}.

(** As [obliging_oracle], but the store is down. *)
Definition store_down_oracle : oracle :=
  {| http_get := λ _ _, whois_reply "AVAILABLE";
     smtp_send := λ _ _ _, Returned ();
     db_ok := λ _, false;
     now := λ n, Z.of_nat n |}.

(** The minimal shape of an address: an [@], and a [.] somewhere after it. *)
Definition at_then_dot (e : string) : Prop :=
  ∃ a b c, e = a +:+ "@" +:+ b +:+ "." +:+ c.

Definition example_app_config : App.config :=
  {| App.WHOISXML_API_KEY := "at_key";
     App.DB_HOST := "localhost";
     App.DB_USER := "root";
     App.DB_PASSWORD := "";
     App.DB_NAME := "domain_saas";
     App.APP_NAME := "Domain Suggester SaaS" |}.

(** [tldextract.extract("example.com")] *)
Definition example_extract (s : string) : App.ExtractResult :=
  {| App.subdomain := ""; App.domain := "example"; App.suffix := "com" |}.

(** As [obliging_oracle], but the first request to the provider times out. *)
Definition first_request_times_out : oracle :=
  {| http_get := λ n _, if n =? 0 then HttpRaises TimeoutException
                        else whois_reply "AVAILABLE";
     smtp_send := λ _ _ _, Returned ();
     db_ok := λ _, true;
     now := λ n, Z.of_nat n |}.

(** ** More notions, for the properties beyond the claims *)

Definition not_at (c : ascii) : bool := negb (Ascii.eqb c "@").

(** [s] is not empty and has no [@] in it: what [[^@]+] matches. *)
Definition at_free_part (s : string) : Prop :=
  s ≠ "" ∧ all_chars not_at s = true.

(** How often the character [c] occurs in [s]. *)
Fixpoint char_count (c : ascii) (s : string) : nat :=
  match s with
  | EmptyString => 0
  | String d s' => (if Ascii.eqb c d then 1 else 0) + char_count c s'
  end.

(** What [generate_domain_ideas] puts before and after the keyword: one
    pair for each name it builds. *)
Definition name_shapes : list (string * string) :=
  ((λ pre, (pre, "")) <$> App.PREFIXES)
  ++ (App.SUFFIXES ≫= λ suf, [("", suf); ("", "-" +:+ suf)])
  ++ [("", "")]
  ++ (take 3 App.PREFIXES ≫= λ pre,
        (λ suf, (pre, suf)) <$> take 3 App.SUFFIXES).

(** The letters of the prefixes and suffixes, and the hyphen. *)
Definition shape_alphabet : list ascii :=
  String.list_ascii_of_string "abcdefghijklmnopqrstuvwxyz-".

(** How often each character of the alphabet occurs in a shape. *)
Definition shape_signature (ps : string * string) : list nat :=
  (λ c, char_count c ps.1 + char_count c ps.2) <$> shape_alphabet.

(** The characters of a host name as the generator writes it. *)
Definition hostname_char (c : ascii) : bool :=
  App.is_a_z_0_9 c || Ascii.eqb c "-" || Ascii.eqb c ".".

(** A store as the database keeps it: no two rows share an id, and every
    id is below the next value of the [AUTO_INCREMENT] counter. *)
Definition store_ok (w : world) : Prop :=
  primary_key (table w) ∧ Forall (λ r, row_id r < next_id w) (table w).

(** As [obliging_oracle], but the fifth external interaction, the update
    of the first row a cycle gets to, fails. *)
Definition update_fails_oracle : oracle :=
  {| http_get := λ _ _, whois_reply "AVAILABLE";
     smtp_send := λ _ _ _, Returned ();
     db_ok := λ n, negb (n =? 4);
     now := λ n, Z.of_nat n |}.

(** * Properties *)

(** ** Strings *)

Lemma lower_char_ascii (c x : ascii) :
  nat_of_ascii x < 128 →
  PyStr.lower_char c = x ↔ ascii_fold c = x.
Proof.
  destruct c as [[] [] [] [] [] [] [] []];
    vm_compute PyStr.lower_char; vm_compute ascii_fold; intros Hx;
    first [ reflexivity
          | split; intros <-; vm_compute in Hx; lia ].
Qed.


Lemma lower_fold_case (s t : string) :
  all_chars is_ascii t = true →
  PyStr.lower s = t ↔ fold_case s = t.
Proof.
  revert t. induction s as [|c s IH]; intros [|x t]; simpl; try done.
  intros [Hx Ht]%andb_prop. unfold is_ascii in Hx. apply Nat.ltb_lt in Hx.
  split; intros [= Hc Hs]; f_equal;
    first [ by apply lower_char_ascii | by apply IH ].
Qed.

Lemma eqb_iff_eq (a b t : string) :
  (a = t ↔ b = t) → String.eqb a t = String.eqb b t.
Proof.
  intros H. destruct (String.eqb_spec a t) as [Ha|Ha], (String.eqb_spec b t) as [Hb|Hb];
    try done; tauto.
Qed.

(** ** The availability checker *)







Lemma rstrip_not_space (s : string) :
  all_chars not_space s = true → PyStr.rstrip s = s.
Proof.
  induction s as [|c s IH]; simpl; [done|].
  intros [Hc Hs]%andb_prop. rewrite (IH Hs).
  unfold not_space in Hc. apply negb_true_iff in Hc. rewrite Hc.
  by destruct s.
Qed.

Lemma strip_not_space (s : string) :
  all_chars not_space s = true → PyStr.strip s = s.
Proof.
  intros H. unfold PyStr.strip.
  assert (PyStr.lstrip s = s) as ->; [|by apply rstrip_not_space].
  destruct s as [|c s]; simpl in *; [done|].
  apply andb_prop in H as [Hc _]. unfold not_space in Hc.
  apply negb_true_iff in Hc. by rewrite Hc.
Qed.



(** ** The poller *)

Lemma notifier_check_run O cfg d w :
  Notifier.check_domain_availability O cfg d w
  = (Returned (returned_or false
       (Notifier.check_body
          (http_get O (tick w)
             (whois_url (format_opt (Notifier.WHOISXML_API_KEY cfg)) d)))),
     bump w).
Proof.
  unfold Notifier.check_domain_availability, Notifier.check_response.
  by destruct (Notifier.check_body _).
Qed.

Lemma send_email_run O to d w :
  Notifier.send_email_notification O to d w
  = (Returned (match smtp_send O (tick w) to d with
               | Returned _ => true
               | Raised _ => false
               end), bump w).
Proof.
  unfold Notifier.send_email_notification.
  by destruct (smtp_send O (tick w) to d).
Qed.

Local Ltac record_verdict v :=
  exists v; eexists _, _; split; [reflexivity|]; simpl;
  rewrite <-?app_assoc; simpl;
  split_and!; [done..|first [by left | right; by split_and!]].

Lemma process_record_run O cfg rec w :
  txn w = None →
  ∃ v o w',
    Notifier.process_record O cfg rec w = (o, w')
    ∧ trace w' = trace w ++ events_of rec v
    ∧ table w' = table_after rec v (table w)
    ∧ next_id w' = next_id w
    ∧ ((v = StoreFailed ∧ o = Raised OperationalError)
       ∨ (v ≠ StoreFailed ∧ o = Returned () ∧ txn w' = None)).
Proof.
  intros Htxn. unfold Notifier.process_record.
  unfold mbind, M_bind. rewrite notifier_check_run.
  destruct (returned_or false _); simpl; [|record_verdict NotAvailable].
  destruct (smtp_send O _ _ _); simpl; [|record_verdict SendFailed].
  unfold Db.execute_update, Db.commit, Db.call; simpl.
  destruct (db_ok O (S (S (tick w)))); simpl; [|record_verdict StoreFailed].
  destruct (db_ok O (S (S (S (tick w))))); simpl; [|record_verdict StoreFailed].
  unfold view; simpl. rewrite Htxn; simpl. record_verdict Notified.
Qed.

Lemma for_each_run O cfg rs w :
  txn w = None →
  ∃ o w' evs,
    for_each rs (Notifier.process_record O cfg) w = (o, w')
    ∧ trace w' = trace w ++ evs
    ∧ run_of rs (table w) o (table w') evs
    ∧ next_id w' = next_id w
    ∧ (o = Returned () → txn w' = None).
Proof.
  revert w. induction rs as [|rec rs IH]; intros w Htxn; simpl.
  - exists (Returned ()), w, []. rewrite app_nil_r.
    split_and!; try done. constructor.
  - destruct (process_record_run O cfg rec w Htxn)
      as (v & o1 & w1 & Hrun & Htr & Htab & Hid & Hv).
    unfold mbind, M_bind. rewrite Hrun.
    destruct Hv as [[-> ->]|(Hv & -> & Htxn1)].
    + exists (Raised OperationalError), w1, (events_of rec StoreFailed).
      split_and!; try done. simpl in Htab. rewrite Htab. constructor.
    + destruct (IH w1 Htxn1) as (o & w' & evs & Hrun' & Htr' & Hrel & Hid' & Ho).
      exists o, w', (events_of rec v ++ evs). rewrite Hrun'.
      split_and!; try done.
      * by rewrite Htr', Htr, app_assoc.
      * apply run_step; [done|]. by rewrite <-Htab.
      * congruence.
Qed.

Lemma check_and_notify_run O cfg w :
  ∃ o w' evs,
    Notifier.check_and_notify O cfg w = (o, w')
    ∧ trace w' = trace w ++ evs
    ∧ cycle_of (table w) o (table w') evs
    ∧ next_id w' = next_id w.
Proof.
  unfold Notifier.check_and_notify, Db.connect, Db.select_pending, Db.call.
  unfold mbind, M_bind; simpl.
  destruct (db_ok O (tick w)); simpl;
    [|exists (Raised OperationalError), (bump w), []; rewrite app_nil_r;
      split_and!; try done; by left].
  destruct (db_ok O (S (tick w))); simpl;
    [|eexists (Raised OperationalError), _, []; rewrite app_nil_r;
      split_and!; try done; by left].
  unfold view; simpl.
  destruct (pending_rows (table w)) as [|rec rs] eqn:Hpend.
  - eexists (Returned ()), _, []. rewrite app_nil_r. split_and!; try done.
    right. rewrite Hpend. simpl. constructor.
  - set (w0 := set_txn None (bump (bump w))).
    destruct (for_each_run O cfg (rec :: rs) w0 eq_refl)
      as (o & w' & evs & Hrun & Htr & Hrel & Hid & Ho).
    change (bump (set_txn None (bump w))) with w0.
    rewrite Hrun. destruct o as [[]|e].
    + eexists (Returned ()), _, evs. split_and!; try done.
      right. by rewrite Hpend.
    + exists (Raised e), w', evs. split_and!; try done.
      right. by rewrite Hpend.
Qed.

Lemma main_loop_run O cfg env n w :
  ∃ o w' evs,
    Notifier.main_loop O cfg env n w = (o, w')
    ∧ trace w' = trace w ++ evs
    ∧ loop_of (Notifier.sleep_seconds cfg env) n (table w) o (table w') evs
    ∧ next_id w' = next_id w.
Proof.
  revert w. induction n as [|n IH]; intros w; simpl.
  - exists (Returned ()), w, []. rewrite app_nil_r. split_and!; try done.
    constructor.
  - destruct (check_and_notify_run O cfg w)
      as (o1 & w1 & evs1 & Hrun & Htr & Hrel & Hid).
    unfold mbind, M_bind. rewrite Hrun. destruct o1 as [[]|e].
    + simpl.
      set (w2 := {| table := table w1; txn := txn w1; next_id := next_id w1;
                    tick := tick w1;
                    trace := trace w1 ++ [EvSleep (Notifier.sleep_seconds cfg env)] |}).
      destruct (IH w2) as (o & w' & evs & Hrun' & Htr' & Hrel' & Hid').
      exists o, w', (evs1 ++ EvSleep (Notifier.sleep_seconds cfg env) :: evs).
      split_and!; try done.
      * rewrite Htr'. simpl. rewrite Htr. rewrite <-!app_assoc. done.
      * by eapply loop_next.
      * by rewrite Hid'.
    + exists (Raised e), w1, evs1. split_and!; try done. by apply loop_crash.
Qed.

(** *** The frame of a cycle *)

Lemma same_but_notified_refl r : same_but_notified r r.
Proof. by unfold same_but_notified. Qed.

Lemma same_but_notified_trans r1 r2 r3 :
  same_but_notified r1 r2 → same_but_notified r2 r3 → same_but_notified r1 r3.
Proof.
  intros (?&?&?&?&?&?) (?&?&?&?&?&?).
  unfold same_but_notified. split_and!; try congruence; auto.
Qed.

Lemma frame_refl t : Forall2 same_but_notified t t.
Proof. induction t; constructor; auto using same_but_notified_refl. Qed.

Lemma frame_trans t1 t2 t3 :
  Forall2 same_but_notified t1 t2 → Forall2 same_but_notified t2 t3 →
  Forall2 same_but_notified t1 t3.
Proof.
  intros H. revert t3. induction H; intros t3 H3; inversion H3; subst;
    constructor; eauto using same_but_notified_trans.
Qed.

Lemma mark_notified_frame i t : Forall2 same_but_notified t (mark_notified i t).
Proof.
  induction t as [|r t IH]; simpl; constructor; [|done].
  case_decide; [|apply same_but_notified_refl]. by unfold same_but_notified.
Qed.

Lemma run_of_frame rs t o t' evs :
  run_of rs t o t' evs → Forall2 same_but_notified t t'.
Proof.
  induction 1 as [t|rec rs t|rec rs v t o t' evs Hv _ IH];
    [apply frame_refl..|].
  eapply frame_trans; [|exact IH].
  destruct v; simpl; auto using frame_refl, mark_notified_frame.
Qed.

Lemma cycle_of_frame t o t' evs :
  cycle_of t o t' evs → Forall2 same_but_notified t t'.
Proof.
  intros [(_ & -> & _)|H]; [apply frame_refl|by eapply run_of_frame].
Qed.

Lemma loop_of_frame secs n t o t' evs :
  loop_of secs n t o t' evs → Forall2 same_but_notified t t'.
Proof.
  induction 1; eauto using frame_refl, cycle_of_frame, frame_trans.
Qed.

Lemma frame_ids t t' :
  Forall2 same_but_notified t t' → row_id <$> t' = row_id <$> t.
Proof.
  induction 1 as [|r r' t t' (Hid & _) _ IH]; [done|].
  rewrite !fmap_cons. by rewrite Hid, IH.
Qed.

Lemma frame_primary_key t t' :
  Forall2 same_but_notified t t' → primary_key t → primary_key t'.
Proof. unfold primary_key. by intros ->%frame_ids. Qed.

(** *** What a cycle does, event by event *)

Lemma touched_app a b : touched (a ++ b) = touched a ++ touched b.
Proof. apply omap_app. Qed.

Lemma touched_events_of rec v i :
  i ∈ touched (events_of rec v) → i = row_id rec.
Proof.
  destruct v; simpl; intros H;
    repeat (apply elem_of_cons in H as [H|H]; [by simplify_eq|]);
    by apply elem_of_nil in H.
Qed.

Lemma update_in_events_of rec v rid :
  EvUpdate rid ∈ events_of rec v → v = Notified ∧ rid = row_id rec.
Proof.
  destruct v; simpl; intros H;
    repeat (apply elem_of_cons in H as [H|H]; [by simplify_eq|]);
    by apply elem_of_nil in H.
Qed.

Lemma run_of_touched rs t o t' evs i :
  run_of rs t o t' evs → i ∈ touched evs → i ∈ row_id <$> rs.
Proof.
  induction 1 as [t|rec rs t|rec rs v t o t' evs Hv _ IH].
  - by intros ?%elem_of_nil.
  - intros ->%touched_events_of. rewrite fmap_cons. left.
  - rewrite touched_app, elem_of_app, fmap_cons.
    intros [->%touched_events_of|H]; [left|right; auto].
Qed.

Lemma row_step_refl r : row_step [] r r.
Proof. split; [apply same_but_notified_refl|done]. Qed.

Lemma row_step_compose e1 e2 r1 r2 r3 :
  row_step e1 r1 r2 → row_step e2 r2 r3 → row_step (e1 ++ e2) r1 r3.
Proof.
  intros [H12 F12] [H23 F23]. split; [by eapply same_but_notified_trans|].
  intros Hflip. apply elem_of_app.
  destruct (decide (notified r2 = notified r1)) as [Heq|Hne]; [right|left; auto].
  destruct H12 as (<- & _). apply F23. congruence.
Qed.

Lemma rows_step_refl t : Forall2 (row_step []) t t.
Proof. induction t; constructor; auto using row_step_refl. Qed.

Lemma rows_step_compose e1 e2 t1 t2 t3 :
  Forall2 (row_step e1) t1 t2 → Forall2 (row_step e2) t2 t3 →
  Forall2 (row_step (e1 ++ e2)) t1 t3.
Proof.
  intros H. revert t3. induction H; intros t3 H3; inversion H3; subst;
    constructor; eauto using row_step_compose.
Qed.

Lemma rows_step_frame evs t t' :
  Forall2 (row_step evs) t t' → Forall2 same_but_notified t t'.
Proof. intros H. eapply Forall2_impl; [exact H|]. by intros ?? [? _]. Qed.

Lemma rows_step_table_after rec v t :
  Forall2 (row_step (events_of rec v)) t (table_after rec v t).
Proof.
  assert (∀ evs, Forall2 (row_step evs) t t) as Hsame.
  { intros evs. induction t; constructor; [|done].
    split; [apply same_but_notified_refl|done]. }
  destruct v; simpl; try apply Hsame.
  clear Hsame. induction t as [|r t IH]; simpl; constructor; [|done].
  case_decide as Hid; [|split; [apply same_but_notified_refl|done]].
  split; [by unfold same_but_notified|].
  intros _. rewrite Hid. by repeat constructor.
Qed.

Lemma run_of_rows_step rs t o t' evs :
  run_of rs t o t' evs → Forall2 (row_step evs) t t'.
Proof.
  induction 1 as [t|rec rs t|rec rs v t o t' evs Hv _ IH].
  - apply rows_step_refl.
  - apply (rows_step_table_after rec StoreFailed).
  - eapply rows_step_compose; [apply rows_step_table_after|exact IH].
Qed.

Lemma notified_at_frame t t' rid :
  Forall2 same_but_notified t t' → notified_at t rid → notified_at t' rid.
Proof.
  intros Hf Hn r' Hr' Hid.
  apply list_elem_of_lookup in Hr' as [i Hi].
  destruct (Forall2_lookup_r _ _ _ _ _ Hf Hi) as (r & Hr & Hid' & _ & _ & _ & _ & Hnot).
  apply Hnot, Hn; [by eapply list_elem_of_lookup_2|congruence].
Qed.

Lemma notified_at_mark rid t : notified_at (mark_notified rid t) rid.
Proof.
  intros r' (r & -> & Hr)%list_elem_of_fmap Hid.
  case_decide; [done|]. by destruct Hid.
Qed.

Lemma run_of_update_notified rs t o t' evs rid :
  run_of rs t o t' evs → EvUpdate rid ∈ evs → notified_at t' rid.
Proof.
  induction 1 as [t|rec rs t|rec rs v t o t' evs Hv Hrun IH].
  - by intros ?%elem_of_nil.
  - by intros [[=] _]%update_in_events_of.
  - intros [[-> ->]%update_in_events_of|Hin]%elem_of_app; [|auto].
    eapply notified_at_frame;
      [eapply rows_step_frame, run_of_rows_step, Hrun|].
    apply notified_at_mark.
Qed.

Lemma app_eq_app_cons {A} (a b pre post : list A) (x : A) :
  a ++ b = pre ++ x :: post →
  (∃ k, a = pre ++ x :: k ∧ post = k ++ b)
  ∨ (∃ k, pre = a ++ k ∧ b = k ++ x :: post).
Proof.
  intros [(k & -> & Hk)|(k & -> & ->)]%app_eq_inv; [|right; by exists k].
  destruct k as [|y k]; simpl in Hk.
  - right. exists []. by rewrite !app_nil_r.
  - injection Hk as <- ->. left. by exists k.
Qed.

Lemma events_of_update_inv rec v pre rid k :
  events_of rec v = pre ++ EvUpdate rid :: k →
  v = Notified ∧ rid = row_id rec ∧ pre = check_then_send rec ∧ k = [].
Proof.
  destruct v; simpl; intros H;
    destruct pre as [|? [|? [|? [|? pre]]]]; by simplify_eq/=.
Qed.

Lemma run_of_update_inv rs t o t' evs pre rid post :
  NoDup (row_id <$> rs) →
  run_of rs t o t' evs →
  evs = pre ++ EvUpdate rid :: post →
  (rid ∉ touched post)
  ∧ ∃ r pre', r ∈ rs ∧ row_id r = rid ∧ pre = pre' ++ check_then_send r.
Proof.
  intros Hnd Hrun. revert pre.
  induction Hrun as [t|rec rs t|rec rs v t o t' evs Hv Hrun IH]; intros pre Heq.
  - by destruct pre.
  - by apply (events_of_update_inv rec StoreFailed) in Heq as ([=] & _).
  - rewrite fmap_cons in Hnd. apply NoDup_cons in Hnd as [Hfresh Hnd].
    apply app_eq_app_cons in Heq as [(k & Hk & ->)|(k & -> & ->)].
    + apply events_of_update_inv in Hk as (_ & -> & -> & ->). split.
      * intros Hin. apply Hfresh. by eapply run_of_touched.
      * exists rec, []. split_and!; [left|done..].
    + destruct (IH Hnd k eq_refl) as (Hpost & r & pre' & Hr & Hid & ->).
      split; [done|]. exists r, (events_of rec v ++ pre').
      split_and!; [by right|done|by rewrite app_assoc].
Qed.

(** *** One cycle *)

Lemma pending_rows_elem r t :
  r ∈ pending_rows t ↔ r ∈ t ∧ notified r = false.
Proof. unfold pending_rows. rewrite list_elem_of_filter. tauto. Qed.

Lemma pending_rows_primary_key t :
  primary_key t → NoDup (row_id <$> pending_rows t).
Proof.
  intros Hpk. eapply sublist_NoDup; [exact Hpk|].
  apply fmap_sublist, sublist_filter.
Qed.

Lemma cycle_of_rows_step t o t' evs :
  cycle_of t o t' evs → Forall2 (row_step evs) t t'.
Proof.
  intros [(_ & -> & ->)|H]; [apply rows_step_refl|by eapply run_of_rows_step].
Qed.

Lemma cycle_of_untouched t o t' evs rid :
  cycle_of t o t' evs → notified_at t rid → rid ∉ touched evs.
Proof.
  intros [(_ & _ & ->)|Hrun] Hn Hin; [by apply elem_of_nil in Hin|].
  eapply run_of_touched in Hin; [|exact Hrun].
  apply list_elem_of_fmap in Hin as (r & Hid & [Hr Hpend]%pending_rows_elem).
  rewrite (Hn r Hr) in Hpend; done.
Qed.

Lemma cycle_of_update_notified t o t' evs rid :
  cycle_of t o t' evs → EvUpdate rid ∈ evs → notified_at t' rid.
Proof.
  intros [(_ & _ & ->)|Hrun] Hin; [by apply elem_of_nil in Hin|].
  by eapply run_of_update_notified.
Qed.

Lemma cycle_of_update_inv t o t' evs pre rid post :
  primary_key t →
  cycle_of t o t' evs →
  evs = pre ++ EvUpdate rid :: post →
  (rid ∉ touched post)
  ∧ ∃ r pre', r ∈ t ∧ row_id r = rid ∧ notified r = false
              ∧ pre = pre' ++ check_then_send r.
Proof.
  intros Hpk [(_ & _ & ->)|Hrun] Heq; [by destruct pre|].
  destruct (run_of_update_inv _ _ _ _ _ _ _ _
              (pending_rows_primary_key t Hpk) Hrun Heq)
    as (Hpost & r & pre' & [Hr Hn]%pending_rows_elem & Hid & ->).
  split; [done|]. by exists r, pre'.
Qed.

(** *** Cycle after cycle *)

Lemma rows_step_mono evs evs' t t' :
  evs ⊆ evs' → Forall2 (row_step evs) t t' → Forall2 (row_step evs') t t'.
Proof.
  intros Hsub H. eapply Forall2_impl; [exact H|].
  intros r r' [Hs Hf]. split; [done|]. intros Hflip. by apply Hsub, Hf.
Qed.

Lemma loop_of_rows_step secs n t o t' evs :
  loop_of secs n t o t' evs → Forall2 (row_step evs) t t'.
Proof.
  induction 1 as [t|n t e t' evs Hc|n t t1 evs1 o t' evs Hc _ IH].
  - apply rows_step_refl.
  - by eapply cycle_of_rows_step.
  - eapply rows_step_compose; [by eapply cycle_of_rows_step|].
    eapply rows_step_mono; [|exact IH]. intros ev Hev. by right.
Qed.

Lemma loop_of_untouched secs n t o t' evs rid :
  loop_of secs n t o t' evs → notified_at t rid → rid ∉ touched evs.
Proof.
  induction 1 as [t|n t e t' evs Hc|n t t1 evs1 o t' evs Hc _ IH]; intros Hn.
  - by intros ?%elem_of_nil.
  - by eapply cycle_of_untouched.
  - rewrite touched_app. simpl. rewrite elem_of_app. intros [Hin|Hin].
    + by eapply cycle_of_untouched.
    + apply IH; [|done]. eapply notified_at_frame; [|exact Hn].
      by eapply rows_step_frame, cycle_of_rows_step.
Qed.

Lemma frame_elem_r t t' r' :
  Forall2 same_but_notified t t' → r' ∈ t' →
  ∃ r, r ∈ t ∧ same_but_notified r r'.
Proof.
  intros Hf [i Hi]%list_elem_of_lookup.
  destruct (Forall2_lookup_r _ _ _ _ _ Hf Hi) as (r & Hr & Hs).
  exists r. split; [by eapply list_elem_of_lookup_2|done].
Qed.

Lemma loop_of_update_inv secs n t o t' evs pre rid post :
  primary_key t →
  loop_of secs n t o t' evs →
  evs = pre ++ EvUpdate rid :: post →
  (rid ∉ touched post)
  ∧ ∃ r pre', r ∈ t ∧ row_id r = rid ∧ notified r = false
              ∧ pre = pre' ++ check_then_send r.
Proof.
  intros Hpk Hloop. revert pre.
  induction Hloop as [t|n t e t' evs Hc|n t t1 evs1 o t' evs Hc Hloop IH];
    intros pre Heq.
  - by destruct pre.
  - by eapply cycle_of_update_inv.
  - pose proof (rows_step_frame _ _ _ (cycle_of_rows_step _ _ _ _ Hc)) as Hf.
    apply app_eq_app_cons in Heq as [(k & Hk & ->)|(k & -> & Hk)].
    + destruct (cycle_of_update_inv _ _ _ _ _ _ _ Hpk Hc Hk) as [Hpost Hpre].
      split; [|done]. rewrite touched_app. simpl. rewrite elem_of_app.
      intros [Hin|Hin]; [done|].
      eapply loop_of_untouched in Hin; [done|exact Hloop|].
      eapply cycle_of_update_notified; [exact Hc|]. rewrite Hk.
      apply elem_of_app. right. left.
    + destruct k as [|ev k]; [done|]. injection Hk as <- ->.
      destruct (IH (frame_primary_key _ _ Hf Hpk) k eq_refl)
        as (Hpost & r1 & pre' & Hr1 & Hid & Hn & ->).
      split; [done|].
      destruct (frame_elem_r _ _ _ Hf Hr1) as (r & Hr & Hrid & Hd & He & _ & _ & Hnot).
      exists r, (evs1 ++ EvSleep secs :: pre'). split_and!; [done|congruence| |].
      * destruct (notified r); [|done]. rewrite Hnot in Hn; done.
      * unfold check_then_send. rewrite <-Hrid, <-Hd, <-He.
        by rewrite <-app_assoc.
Qed.

Lemma primary_key_notified_at t r :
  primary_key t → r ∈ t → notified r = true → notified_at t (row_id r).
Proof.
  unfold primary_key. intros Hpk Hr Hn r2 Hr2 Hid.
  assert (r2 = r) as ->; [|done].
  induction t as [|x t IH]; [by apply elem_of_nil in Hr|].
  rewrite fmap_cons in Hpk. apply NoDup_cons in Hpk as [Hx Hpk].
  apply elem_of_cons in Hr as [->|Hr], Hr2 as [->|Hr2]; try done.
  - destruct Hx. rewrite <-Hid. by apply list_elem_of_fmap_2.
  - destruct Hx. rewrite Hid. by apply list_elem_of_fmap_2.
  - by apply IH.
Qed.

(** C1: over any number of cycles of the poller, a row is updated only
    right after a check of its domain that said available and a successful
    send to its email, the row was pending before, and nothing is done for
    this row afterwards (no second check, send or update); a row that is
    already notified is never selected; [notified] is all that changes in
    the table, and it changes only with such an update. *)
Theorem notified_at_most_once O cfg env n w :
  primary_key (table w) →
  ∃ o w' evs,
    Notifier.main_loop O cfg env n w = (o, w')
    ∧ trace w' = trace w ++ evs
    ∧ Forall2 (row_step evs) (table w) (table w')
    ∧ (∀ pre rid post,
         evs = pre ++ EvUpdate rid :: post →
         (rid ∉ touched post)
         ∧ ∃ r pre', r ∈ table w ∧ row_id r = rid ∧ notified r = false
                     ∧ pre = pre' ++ check_then_send r)
    ∧ (∀ r, r ∈ table w → notified r = true → row_id r ∉ touched evs).
Proof.
  intros Hpk.
  destruct (main_loop_run O cfg env n w) as (o & w' & evs & Hrun & Htr & Hloop & _).
  exists o, w', evs. split_and!; try done.
  - by eapply loop_of_rows_step.
  - intros pre rid post Heq. by eapply loop_of_update_inv.
  - intros r Hr Hn. eapply loop_of_untouched; [exact Hloop|].
    by apply primary_key_notified_at.
Qed.

Lemma notified_at_most_once_example :
  let w := example_world [example_row 1 "example.com" "user@test.com" false] in
  primary_key (table w)
  ∧ ∃ o w' evs,
      Notifier.main_loop obliging_oracle example_notifier_config ∅ 2 w = (o, w')
      ∧ trace w' = trace w ++ evs
      ∧ Forall2 (row_step evs) (table w) (table w')
      ∧ (∀ pre rid post,
           evs = pre ++ EvUpdate rid :: post →
           (rid ∉ touched post)
           ∧ ∃ r pre', r ∈ table w ∧ row_id r = rid ∧ notified r = false
                       ∧ pre = pre' ++ check_then_send r)
      ∧ (∀ r, r ∈ table w → notified r = true → row_id r ∉ touched evs).
Proof.
  assert (primary_key [example_row 1 "example.com" "user@test.com" false]) as Hpk.
  { unfold primary_key. simpl. apply NoDup_singleton. }
  split; [exact Hpk|].
  exact (notified_at_most_once obliging_oracle example_notifier_config ∅ 2
           (example_world [example_row 1 "example.com" "user@test.com" false]) Hpk).
Defined.

(** What the two cycles of the example do. *)
Example two_cycles_one_mail :
  trace (Notifier.main_loop obliging_oracle example_notifier_config ∅ 2
           (example_world [example_row 1 "example.com" "user@test.com" false])).2
  = [EvCheck 1 "example.com" true; EvSend 1 "user@test.com" "example.com" true;
     EvUpdate 1; EvSleep 30; EvSleep 30].
Proof. reflexivity. Qed.

(** C10: a cycle, and any number of cycles, leave the table as it was but for
    [notified]: as many rows, in the same order, each with its id, domain,
    email, creation time and [last_checked_at] as before, and [notified]
    changed (to true) only for a row that an update was made for; no id is
    consumed. *)
Theorem poller_frame O cfg env n w :
  (∃ o w' evs,
     Notifier.check_and_notify O cfg w = (o, w')
     ∧ trace w' = trace w ++ evs
     ∧ Forall2 (row_step evs) (table w) (table w')
     ∧ Forall2 same_but_notified (table w) (table w')
     ∧ last_checked_at <$> table w' = last_checked_at <$> table w
     ∧ length (table w') = length (table w)
     ∧ next_id w' = next_id w)
  ∧ (∃ o w',
       Notifier.main_loop O cfg env n w = (o, w')
       ∧ Forall2 same_but_notified (table w) (table w')
       ∧ last_checked_at <$> table w' = last_checked_at <$> table w
       ∧ length (table w') = length (table w)
       ∧ next_id w' = next_id w).
Proof.
  assert (∀ t t', Forall2 same_but_notified t t' →
                  last_checked_at <$> t' = last_checked_at <$> t) as Hlast.
  { induction 1 as [|r r' t t' (_ & _ & _ & _ & Hl & _) _ IH]; [done|].
    rewrite !fmap_cons. by rewrite Hl, IH. }
  split.
  - destruct (check_and_notify_run O cfg w) as (o & w' & evs & Hrun & Htr & Hc & Hid).
    pose proof (cycle_of_rows_step _ _ _ _ Hc) as Hstep.
    pose proof (rows_step_frame _ _ _ Hstep) as Hf.
    exists o, w', evs. split_and!; try done; [by apply Hlast|].
    symmetry. by eapply Forall2_length.
  - destruct (main_loop_run O cfg env n w) as (o & w' & evs & Hrun & Htr & Hl & Hid).
    pose proof (rows_step_frame _ _ _ (loop_of_rows_step _ _ _ _ _ _ Hl)) as Hf.
    exists o, w'. split_and!; try done; [by apply Hlast|].
    symmetry. by eapply Forall2_length.
Qed.

(** *** A cycle with the store up *)

Lemma process_record_store_up O cfg rec w :
  (∀ k, db_ok O k = true) →
  (Notifier.process_record O cfg rec w).1 = Returned ().
Proof.
  intros Hdb. unfold Notifier.process_record.
  unfold mbind, M_bind. rewrite notifier_check_run.
  destruct (returned_or false _); simpl; [|done].
  destruct (smtp_send O _ _ _); simpl; [|done].
  unfold Db.execute_update, Db.commit, Db.call; simpl.
  by rewrite !Hdb.
Qed.

Lemma run_of_returned_checks rs t t' evs :
  run_of rs t (Returned ()) t' evs →
  Forall (λ r, ∃ b, EvCheck (row_id r) (domain_name r) b ∈ evs) rs.
Proof.
  intros Hrun. remember (Returned ()) as o eqn:Ho.
  induction Hrun as [t|rec rs t|rec rs v t o t' evs Hv _ IH]; [done..|].
  constructor.
  - destruct v; [exists false|exists true..]; apply elem_of_app; left; left.
  - eapply Forall_impl; [by apply IH|].
    intros r [b Hb]. exists b. apply elem_of_app. by right.
Qed.

Lemma two_rows_cycle O cfg w r1 r2 e :
  (∀ k, db_ok O k = true) →
  pending_rows (table w) = [r1; r2] →
  Notifier.check_response
    (http_get O (2 + tick w)
       (whois_url (format_opt (Notifier.WHOISXML_API_KEY cfg)) (domain_name r1)))
  = Returned true →
  smtp_send O (3 + tick w) (email r1) (domain_name r1) = Raised e →
  Notifier.check_response
    (http_get O (4 + tick w)
       (whois_url (format_opt (Notifier.WHOISXML_API_KEY cfg)) (domain_name r2)))
  = Returned true →
  smtp_send O (5 + tick w) (email r2) (domain_name r2) = Returned () →
  ∃ w', Notifier.check_and_notify O cfg w = (Returned (), w')
        ∧ table w' = mark_notified (row_id r2) (table w)
        ∧ trace w' = trace w
                     ++ [EvCheck (row_id r1) (domain_name r1) true;
                         EvSend (row_id r1) (email r1) (domain_name r1) false]
                     ++ check_then_send r2 ++ [EvUpdate (row_id r2)].
Proof.
  intros Hdb Hpend Hc1 Hs1 Hc2 Hs2.
  unfold Notifier.check_and_notify, Db.connect, Db.select_pending, Db.call.
  unfold mbind, M_bind; simpl. rewrite !Hdb. simpl.
  unfold view; simpl. rewrite Hpend. simpl.
  unfold Notifier.process_record, Notifier.check_domain_availability,
    Notifier.send_email_notification, mbind, M_bind; simpl.
  simpl in Hc1, Hs1, Hc2, Hs2.
  rewrite Hc1; simpl. rewrite Hs1; simpl. rewrite Hc2; simpl.
  rewrite Hs2; simpl.
  unfold Db.execute_update, Db.commit, Db.call; simpl. rewrite !Hdb; simpl.
  eexists. split; [reflexivity|]. simpl.
  split; [done|]. by rewrite <-!app_assoc.
Qed.

Lemma for_each_store_up O cfg rs w :
  (∀ k, db_ok O k = true) →
  (for_each rs (Notifier.process_record O cfg) w).1 = Returned ().
Proof.
  intros Hdb. revert w. induction rs as [|rec rs IH]; intros w; [done|].
  simpl. unfold mbind, M_bind.
  pose proof (process_record_store_up O cfg rec w Hdb) as Hrec.
  destruct (Notifier.process_record O cfg rec w) as [o w1].
  simpl in Hrec. subst o. apply IH.
Qed.

Lemma check_and_notify_store_up O cfg w :
  (∀ k, db_ok O k = true) →
  (Notifier.check_and_notify O cfg w).1 = Returned ().
Proof.
  intros Hdb.
  unfold Notifier.check_and_notify, Db.connect, Db.select_pending, Db.call.
  unfold mbind, M_bind; simpl. rewrite !Hdb. simpl.
  destruct (pending_rows _) as [|rec rs]; [done|].
  pose proof (for_each_store_up O cfg (rec :: rs)
                (bump (set_txn None (bump w))) Hdb) as Hrs.
  destruct (for_each _ _ _) as [o w1]. simpl in Hrs. by subst o.
Qed.

(** C4: with the store reachable, a cycle goes through every pending row
    and returns, whatever the checker and the mail transport do; and of two
    pending rows, where the send fails for the first and check and send
    succeed for the second, the first stays pending and the second is
    marked notified. *)
Theorem poller_resilience O cfg w :
  (∀ k, db_ok O k = true) →
  ∃ w' evs,
    Notifier.check_and_notify O cfg w = (Returned (), w')
    ∧ trace w' = trace w ++ evs
    ∧ Forall (λ r, ∃ b, EvCheck (row_id r) (domain_name r) b ∈ evs)
             (pending_rows (table w))
    ∧ ∀ r1 r2 e,
        primary_key (table w) →
        pending_rows (table w) = [r1; r2] →
        Notifier.check_response
          (http_get O (2 + tick w)
             (whois_url (format_opt (Notifier.WHOISXML_API_KEY cfg))
                        (domain_name r1)))
        = Returned true →
        smtp_send O (3 + tick w) (email r1) (domain_name r1) = Raised e →
        Notifier.check_response
          (http_get O (4 + tick w)
             (whois_url (format_opt (Notifier.WHOISXML_API_KEY cfg))
                        (domain_name r2)))
        = Returned true →
        smtp_send O (5 + tick w) (email r2) (domain_name r2) = Returned () →
        table w' = mark_notified (row_id r2) (table w)
        ∧ r1 ∈ table w' ∧ notified r1 = false
        ∧ set_notified r2 ∈ table w'.
Proof.
  intros Hdb.
  destruct (check_and_notify_run O cfg w) as (o & w' & evs & Hrun & Htr & Hc & _).
  pose proof (check_and_notify_store_up O cfg w Hdb) as Ho.
  rewrite Hrun in Ho. simpl in Ho. subst o.
  exists w', evs. split_and!; try done.
  - destruct Hc as [([=] & _)|Hc]. by eapply run_of_returned_checks.
  - intros r1 r2 e Hpk Hpend Hc1 Hs1 Hc2 Hs2.
    destruct (two_rows_cycle O cfg w r1 r2 e Hdb Hpend Hc1 Hs1 Hc2 Hs2)
      as (w2 & Hrun2 & Htab & _).
    rewrite Hrun in Hrun2. injection Hrun2 as <-.
    assert (r1 ∈ table w ∧ notified r1 = false) as [Hr1 Hn1].
    { apply pending_rows_elem. rewrite Hpend. left. }
    assert (r2 ∈ table w) as Hr2.
    { eapply proj1, pending_rows_elem. rewrite Hpend. right. left. }
    assert (row_id r1 ≠ row_id r2) as Hne.
    { pose proof (pending_rows_primary_key _ Hpk) as Hnd.
      rewrite Hpend in Hnd. simpl in Hnd.
      apply NoDup_cons in Hnd as [Hnin _]. intros Heq. apply Hnin.
      rewrite Heq. left. }
    rewrite Htab. unfold mark_notified. split_and!; try done.
    + apply list_elem_of_fmap. exists r1. by rewrite decide_False.
    + apply list_elem_of_fmap. exists r2. by rewrite decide_True.
Qed.

Lemma poller_resilience_example :
  let w := example_world [example_row 1 "taken.com" "first@test.com" false;
                          example_row 2 "free.io" "second@test.com" false] in
  ∃ w' evs,
    Notifier.check_and_notify flaky_mail_oracle example_notifier_config w
    = (Returned (), w')
    ∧ trace w' = trace w ++ evs
    ∧ table w' = [example_row 1 "taken.com" "first@test.com" false;
                  example_row 2 "free.io" "second@test.com" true].
Proof.
  intros w.
  destruct (poller_resilience flaky_mail_oracle example_notifier_config w
              (λ _, eq_refl)) as (w' & evs & Hrun & Htr & _ & Htwo).
  exists w', evs. split; [exact Hrun|]. split; [exact Htr|].
  refine (proj1 (Htwo _ _ SMTPException _ eq_refl eq_refl eq_refl eq_refl eq_refl)).
  unfold primary_key. simpl. apply NoDup_cons. split; [|apply NoDup_singleton].
  intros [=]%list_elem_of_singleton.
Defined.

(** ** The availability checker, claim by claim *)

Lemma app_check_run O cfg d w :
  App.check_domain_availability O cfg d w
  = (Returned (returned_or false
       (App.check_body
          (http_get O (tick w) (whois_url (App.WHOISXML_API_KEY cfg) d)))),
     bump w).
Proof.
  unfold App.check_domain_availability, App.check_response.
  by destruct (App.check_body _).
Qed.




(** C7: neither checker lets an exception out. Whatever the provider does,
    each returns a boolean, which is [false] whenever its own [try] block
    raised: on a time-out or a network failure, on a body that is not JSON,
    and on JSON of the wrong shape. *)
Theorem check_never_raises O acfg ncfg d w :
  (App.check_domain_availability O acfg d w).1
  = Returned (returned_or false
      (App.check_body
         (http_get O (tick w) (whois_url (App.WHOISXML_API_KEY acfg) d))))
  ∧ (Notifier.check_domain_availability O ncfg d w).1
    = Returned (returned_or false
        (Notifier.check_body
           (http_get O (tick w)
              (whois_url (format_opt (Notifier.WHOISXML_API_KEY ncfg)) d))))
  ∧ (∀ e, App.check_response (HttpRaises e) = Returned false
          ∧ Notifier.check_response (HttpRaises e) = Returned false)
  ∧ App.check_response (HttpBody None) = Returned false
  ∧ Notifier.check_response (HttpBody None) = Returned false
  ∧ (∀ b n s items,
       Forall (λ j, App.check_response (HttpBody (Some j)) = Returned false
                    ∧ Notifier.check_response (HttpBody (Some j)) = Returned false)
              [JNull; JBool b; JNum n; JStr s; JArr items;
               JObj [("DomainInfo", JNull)];
               JObj [("DomainInfo", JObj [("domainAvailability", JNum n)])]]).
Proof.
  split_and!; try done.
  - by rewrite app_check_run.
  - by rewrite notifier_check_run.
  - intros b n s items. by repeat constructor.
Qed.

(** ** Regular expressions *)

Lemma nullable_sound r : Re.nullable r = true → Re.matches r "".
Proof.
  induction r as [| | | |r1 IH1 r2 IH2|r1 IH1 r2 IH2|r IH]; simpl; try done.
  - intros _. constructor.
  - intros [H1 H2]%andb_prop. apply (Re.m_cat r1 r2 "" ""); auto.
  - intros [H|H]%orb_prop; [apply Re.m_alt_l|apply Re.m_alt_r]; auto.
  - intros H. apply Re.m_plus_one. auto.
Qed.

Lemma deriv_sound a r s : Re.matches (Re.deriv a r) s → Re.matches r (String a s).
Proof.
  revert s.
  induction r as [| |c|c|r1 IH1 r2 IH2|r1 IH1 r2 IH2|r IH]; simpl; intros s H.
  - inversion H.
  - inversion H.
  - destruct (Ascii.eqb_spec a c) as [->|]; inversion H; subst. constructor.
  - destruct (Ascii.eqb_spec a c) as [|Hne]; inversion H; subst. by constructor.
  - assert (∀ s, Re.matches (Re.Cat (Re.deriv a r1) r2) s →
                 Re.matches (Re.Cat r1 r2) (String a s)) as Hcat.
    { intros s' H'. inversion H' as [| | |? ? s1 s2 H1 H2| | | |]; subst.
      apply (Re.m_cat r1 r2 (String a s1) s2); auto. }
    destruct (Re.nullable r1) eqn:Hn; [|by apply Hcat].
    inversion H; subst; [by apply Hcat|].
    apply (Re.m_cat r1 r2 "" (String a s)); auto using nullable_sound.
  - inversion H; subst; [apply Re.m_alt_l|apply Re.m_alt_r]; auto.
  - inversion H as [| | | |? ? ? H1|? ? ? H1| |]; subst.
    + apply Re.m_plus_one. auto.
    + inversion H1 as [| | |? ? s1 s2 H2 H3| | | |]; subst.
      apply (Re.m_plus_more r (String a s1) s2); auto.
Qed.

Lemma match_prefix_sound r s :
  Re.match_prefix r s = true → ∃ p q, s = p +:+ q ∧ Re.matches r p.
Proof.
  revert r. induction s as [|a s IH]; intros r; simpl.
  - rewrite orb_false_r. intros H. exists "", "". auto using nullable_sound.
  - intros [H|H]%orb_prop.
    + exists "", (String a s). auto using nullable_sound.
    + destruct (IH _ H) as (p & q & -> & Hp).
      exists (String a p), q. auto using deriv_sound.
Qed.

Lemma append_assoc (a b c : string) : (a +:+ b) +:+ c = a +:+ (b +:+ c).
Proof.
  induction a as [|x a IH]; [done|].
  change (String x ((a +:+ b) +:+ c) = String x (a +:+ (b +:+ c))).
  by rewrite IH.
Qed.

Lemma email_re_sound e :
  Re.match_prefix App.EMAIL_RE e = true → at_then_dot e.
Proof.
  intros (p & q & -> & Hp)%match_prefix_sound. unfold App.EMAIL_RE in Hp.
  inversion Hp as [| | |? ? s1 t1 _ H1| | | |]; subst.
  inversion H1 as [| | |? ? s2 t2 H2 H3| | | |]; subst.
  inversion H2; subst.
  inversion H3 as [| | |? ? s3 t3 _ H4| | | |]; subst.
  inversion H4 as [| | |? ? s4 t4 H5 _| | | |]; subst.
  inversion H5; subst.
  exists s1, s3, (t4 +:+ q). by rewrite !append_assoc.
Qed.

(** ** POST /notify *)

Lemma body_data body :
  match body_fields body with
  | Some fields => py_or body (JObj []) = JObj fields
  | None => ∀ key dflt,
      py_get (py_or body (JObj [])) key dflt = Raised AttributeError
  end.
Proof.
  destruct body as [|[]|[| |]|[|]|[|]|[|]]; done.
Qed.

Lemma field_strip_lower fields key :
  (v ← py_get (JObj fields) key JNull; py_strip_lower (py_or v (JStr "")))
  = match field_text fields key with
    | Some s => Returned (PyStr.lower (PyStr.strip s))
    | None => Raised AttributeError
    end.
Proof.
  unfold field_text. simpl.
  destruct (assoc key fields) as [[|[]|[| |]|[|]|[|]|[|]]|]; done.
Qed.

Lemma notify_fields_run body :
  App.notify_fields body
  = match request_text body "domain", request_text body "email" with
    | Some d, Some e =>
        Returned (PyStr.lower (PyStr.strip d), PyStr.lower (PyStr.strip e))
    | _, _ => Raised AttributeError
    end.
Proof.
  unfold App.notify_fields, request_text.
  pose proof (body_data body) as Hdata.
  destruct (body_fields body) as [fields|].
  - rewrite Hdata.
    pose proof (field_strip_lower fields "domain") as Hd.
    pose proof (field_strip_lower fields "email") as He.
    unfold mbind, outcome_bind in *. cbn [py_get] in *.
    rewrite Hd. destruct (field_text fields "domain"); [|done].
    rewrite He. by destruct (field_text fields "email").
  - unfold mbind, outcome_bind. by rewrite Hdata.
Qed.

Lemma check_input_run body :
  App.check_input body
  = match request_text body "input_text" with
    | Some s => Returned (PyStr.lower (PyStr.strip s))
    | None => Raised AttributeError
    end.
Proof.
  unfold App.check_input, request_text.
  pose proof (body_data body) as Hdata.
  destruct (body_fields body) as [fields|].
  - rewrite Hdata. apply field_strip_lower.
  - unfold mbind, outcome_bind. by rewrite Hdata.
Qed.

(** [/notify] on a body whose two fields can be read. *)
Lemma subscribe_run O body w d e :
  request_text body "domain" = Some d →
  request_text body "email" = Some e →
  App.subscribe_for_notification O body w
  = App.store_subscription O (PyStr.lower (PyStr.strip d))
      (PyStr.lower (PyStr.strip e)) w.
Proof.
  intros Hd He. unfold App.subscribe_for_notification, pureM, mbind, M_bind.
  by rewrite notify_fields_run, Hd, He.
Qed.

(** [/notify] on a body that cannot be read. *)
Lemma subscribe_unreadable O body w :
  request_text body "domain" = None ∨ request_text body "email" = None →
  App.subscribe_for_notification O body w = (Raised AttributeError, w).
Proof.
  intros Hno. unfold App.subscribe_for_notification, pureM, mbind, M_bind.
  rewrite notify_fields_run.
  destruct Hno as [->| ->]; [done|]. by destruct (request_text body "domain").
Qed.

(** C6: the claim holds of every request whose fields are strings or are
    missing, and fails on the others. A body that is not an object, or a
    domain or an email that is a number, an array, an object or [true],
    raises [AttributeError] in lines 216-218: the world is untouched (no
    database call, no row) but the framework answers 500, not 400.
    Otherwise: a request without a domain or an email, or whose email does
    not match the pattern (in particular one without an [@] followed later
    by a [.]), is answered 400 with the world untouched. An accepted
    request, when the three database calls succeed, is answered 200 and
    the table gains exactly one row, at its end, with the next id, the
    normalised domain and email and [notified] false. When a database call
    fails the answer is 500, the table is as before and no transaction is
    left open. *)
Theorem notify_request_handling O body w :
  ((request_text body "domain" = None ∨ request_text body "email" = None) →
   App.subscribe_for_notification O body w = (Raised AttributeError, w)
   ∧ App.dispatch (App.subscribe_for_notification O body) w
     = ({| App.status_code := 500; App.payload := [] |}, set_txn None w))
  ∧ ∀ d e,
      request_text body "domain" = Some d →
      request_text body "email" = Some e →
      let domain := PyStr.lower (PyStr.strip d) in
      let email := PyStr.lower (PyStr.strip e) in
      let accepted := negb (PyStr.is_empty domain) && negb (PyStr.is_empty email)
                      && Re.match_prefix App.EMAIL_RE email in
      let store_up := db_ok O (tick w) && db_ok O (1 + tick w)
                      && db_ok O (2 + tick w) in
      (accepted = false →
       ∃ msg, App.subscribe_for_notification O body w
              = (Returned {| App.status_code := 400;
                             App.payload := [("error", msg)] |}, w))
      ∧ (¬ at_then_dot email → accepted = false)
      ∧ (accepted = true → store_up = true →
         ∃ r w' ts,
           App.subscribe_for_notification O body w = (Returned r, w')
           ∧ App.status_code r = 200
           ∧ table w'
             = table w ++ [{| row_id := next_id w; domain_name := domain;
                              email := email; notified := false;
                              created_at := ts; last_checked_at := None |}]
           ∧ txn w' = None)
      ∧ (accepted = true → store_up = false →
         ∃ r w',
           App.dispatch (App.subscribe_for_notification O body) w = (r, w')
           ∧ App.status_code r = 500
           ∧ table w' = table w
           ∧ txn w' = None).
Proof.
  split.
  { intros Hno. unfold App.dispatch.
    by rewrite (subscribe_unreadable O body w Hno). }
  intros d e Hd He domain email accepted store_up.
  rewrite (subscribe_run O body w d e Hd He). fold domain email.
  unfold App.store_subscription.
  split_and!.
  - unfold accepted. intros Hacc.
    destruct (PyStr.is_empty domain), (PyStr.is_empty email); simpl in *;
      [by eexists..|].
    rewrite Hacc. simpl. by eexists.
  - intros Hshape. unfold accepted.
    destruct (Re.match_prefix App.EMAIL_RE email) eqn:Hm;
      [|by rewrite andb_false_r].
    by apply email_re_sound in Hm.
  - unfold accepted, store_up.
    intros [[Hd' He']%andb_prop Hm]%andb_prop [[H0 H1]%andb_prop H2]%andb_prop.
    apply negb_true_iff in Hd', He'. rewrite Hd', He', Hm. simpl.
    unfold mbind, M_bind, try_finallyM, try_exceptM, Db.connect,
      Db.execute_insert, Db.commit, Db.call. simpl in *.
    rewrite H0. simpl. rewrite H1. simpl. rewrite H2. simpl.
    eexists _, _, _. split; [reflexivity|]. by simpl.
  - unfold accepted, store_up.
    intros [[Hd' He']%andb_prop Hm]%andb_prop Hdown.
    unfold App.dispatch. rewrite (subscribe_run O body w d e Hd He).
    fold domain email. unfold App.store_subscription.
    apply negb_true_iff in Hd', He'. rewrite Hd', He', Hm. simpl.
    unfold mbind, M_bind, try_finallyM, try_exceptM, Db.connect,
      Db.execute_insert, Db.commit, Db.rollback, Db.call. simpl in *.
    destruct (db_ok O (tick w)); simpl in *; [|by eexists _, _].
    destruct (db_ok O (S (tick w))); simpl in *.
    + destruct (db_ok O (S (S (tick w)))); simpl in *; [done|].
      destruct (db_ok O (S (S (S (tick w))))); simpl; by eexists _, _.
    + destruct (db_ok O (S (S (tick w)))); simpl; by eexists _, _.
Qed.

(** ** The suggestion generator *)

Lemma random_choice_elem l r : l ≠ [] → random_choice l r ∈ l.
Proof.
  intros Hl. unfold random_choice.
  destruct (l !! (r mod length l)) as [x|] eqn:Hx; simpl.
  - by eapply list_elem_of_lookup_2.
  - apply lookup_ge_None in Hx.
    assert (length l ≠ 0) as Hlen by (by destruct l).
    pose proof (Nat.mod_upper_bound r (length l) Hlen). lia.
Qed.

Lemma build_ideas_elem k r x :
  x ∈ App.build_ideas k r ↔ x ∈ fixed_candidates k.
Proof.
  assert (x = k +:+ random_choice App.SUFFIXES r →
          x ∈ (λ suf, k +:+ suf) <$> App.SUFFIXES) as Hrandom.
  { intros ->. apply list_elem_of_fmap_2, random_choice_elem. done. }
  unfold App.build_ideas, fixed_candidates, App.add.
  revert Hrandom. generalize (random_choice App.SUFFIXES r). intros c.
  cbn [foldl App.PREFIXES App.SUFFIXES take fmap list_fmap mbind list_bind app].
  rewrite !elem_of_union, !elem_of_singleton, !elem_of_cons, elem_of_nil,
    elem_of_empty.
  tauto.
Qed.

Lemma dot_free_app a b : dot_free (a +:+ b) = dot_free a && dot_free b.
Proof.
  induction a as [|x a IH]; [done|].
  change (String x a +:+ b) with (String x (a +:+ b)).
  unfold dot_free in *. simpl. by rewrite IH, andb_assoc.
Qed.

Lemma before_dot_app name t :
  dot_free name = true → before_dot (name +:+ String "." t) = name.
Proof.
  induction name as [|x name IH]; [done|].
  change (String x name +:+ String "." t) with (String x (name +:+ String "." t)).
  unfold dot_free. simpl. intros [Hx Hn]%andb_prop.
  unfold not_dot in Hx. apply negb_true_iff in Hx. rewrite Hx.
  f_equal. by apply IH.
Qed.

Lemma class_excludes_dot c : App.is_a_z_0_9 c = true → not_dot c = true.
Proof. destruct c as [[] [] [] [] [] [] [] []]; by vm_compute. Qed.

Lemma sanitize_dot_free w : dot_free (App.sanitize_word w) = true.
Proof.
  unfold App.sanitize_word, dot_free.
  induction (PyStr.lower (PyStr.strip w)) as [|c s IH]; simpl; [done|].
  destruct (App.is_a_z_0_9 c) eqn:Hc; [|done].
  simpl. by rewrite (class_excludes_dot c Hc), IH.
Qed.

Lemma fixed_candidates_dot_free k :
  dot_free k = true → Forall (λ x, dot_free x = true) (fixed_candidates k).
Proof.
  intros Hk. unfold fixed_candidates.
  cbn [App.PREFIXES App.SUFFIXES take fmap list_fmap mbind list_bind app].
  repeat (apply Forall_cons; split; [by rewrite ?dot_free_app, ?Hk|]).
  constructor.
Qed.

Lemma tlds_start_with_dot tld :
  tld ∈ App.TLDS → ∃ t, tld = String "." t.
Proof.
  unfold App.TLDS. intros H.
  repeat (apply elem_of_cons in H as [->|H]; [by eexists|]).
  by apply elem_of_nil in H.
Qed.

Lemma fqdn_name_inj name name' tld tld' :
  dot_free name = true → dot_free name' = true →
  tld ∈ App.TLDS → tld' ∈ App.TLDS →
  name +:+ tld = name' +:+ tld' → name = name'.
Proof.
  intros Hn Hn' [t ->]%tlds_start_with_dot [t' ->]%tlds_start_with_dot Heq.
  by rewrite <-(before_dot_app name t), <-(before_dot_app name' t'), Heq.
Qed.

Lemma slice_to_sublist {A} limit (l : list A) : slice_to limit l `sublist_of` l.
Proof. unfold slice_to. case_match; apply sublist_take. Qed.

Lemma slice_to_length {A} limit (l : list A) :
  (0 ≤ limit)%Z → length (slice_to limit l) ≤ Z.to_nat limit.
Proof.
  intros H%Z.leb_le. unfold slice_to. rewrite H, length_take. lia.
Qed.

Lemma slice_to_all {A} limit (l : list A) :
  (Z.of_nat (length l) ≤ limit)%Z → slice_to limit l = l.
Proof.
  intros H. unfold slice_to.
  assert ((0 <=? limit)%Z = true) as -> by (apply Z.leb_le; lia).
  apply take_ge. lia.
Qed.

Lemma append_nonempty a b : b ≠ "" → a +:+ b ≠ "".
Proof. by destruct a, b. Qed.

Lemma tld_choice r : random_choice App.TLDS r ∈ App.TLDS.
Proof. by apply random_choice_elem. Qed.

Lemma suffix_dot_free suf : suf ∈ App.SUFFIXES → dot_free suf = true.
Proof.
  unfold App.SUFFIXES. intros H.
  repeat (apply elem_of_cons in H as [->|H]; [done|]).
  by apply elem_of_nil in H.
Qed.

Lemma keyword_suffix_candidate k suf :
  suf ∈ App.SUFFIXES → k +:+ suf ∈ fixed_candidates k.
Proof.
  unfold App.SUFFIXES, fixed_candidates. intros H.
  cbn [App.PREFIXES App.SUFFIXES take fmap list_fmap mbind list_bind app].
  repeat (apply elem_of_cons in H as [->|H]; [by repeat constructor|]).
  by apply elem_of_nil in H.
Qed.

Section Generate.
Variable order : gset string → list string.
Hypothesis order_enumerates : ∀ X, order X ≡ₚ elements X.
Variable rnd : nat → nat.
Variable keyword : string.
Variable limit : Z.

Let k := App.sanitize_word keyword.
Let names := slice_to limit (order (App.build_ideas k (rnd 0))).
Let out := App.generate_domain_ideas order rnd keyword limit.

Lemma order_elem x : x ∈ order (App.build_ideas k (rnd 0)) ↔ x ∈ fixed_candidates k.
Proof.
  rewrite (elem_of_Permutation_proper _ _ _ (order_enumerates _)).
  rewrite elem_of_elements. apply build_ideas_elem.
Qed.

Lemma order_NoDup : NoDup (order (App.build_ideas k (rnd 0))).
Proof. rewrite order_enumerates. apply NoDup_elements. Qed.

Lemma order_length : length (order (App.build_ideas k (rnd 0))) ≤ 30.
Proof.
  change 30 with (length (fixed_candidates k)).
  apply submseteq_length, NoDup_submseteq; [apply order_NoDup|].
  intros x. apply order_elem.
Qed.

Lemma names_NoDup : NoDup names.
Proof. eapply sublist_NoDup; [apply order_NoDup|apply slice_to_sublist]. Qed.

Lemma names_dot_free x : x ∈ names → dot_free x = true.
Proof.
  intros Hx. eapply elem_of_sublist in Hx; [|apply slice_to_sublist].
  apply order_elem in Hx.
  pose proof (fixed_candidates_dot_free k (sanitize_dot_free keyword)) as Hall.
  rewrite Forall_forall in Hall. by apply Hall.
Qed.

Lemma out_lookup i e :
  out !! i = Some e ↔
  ∃ name, names !! i = Some name
          ∧ e = name +:+ random_choice App.TLDS (rnd (S i)).
Proof.
  unfold out, App.generate_domain_ideas. fold k. fold names.
  rewrite list_lookup_imap, fmap_Some. split; intros (name & ? & ?); by exists name.
Qed.

Lemma out_name i name tld :
  dot_free name = true → tld ∈ App.TLDS →
  out !! i = Some (name +:+ tld) → names !! i = Some name.
Proof.
  intros Hn Ht (name' & Hi & Heq)%out_lookup.
  assert (name = name') as ->; [|done].
  eapply fqdn_name_inj; [exact Hn| |exact Ht|apply tld_choice|exact Heq].
  eapply names_dot_free, list_elem_of_lookup_2, Hi.
Qed.
End Generate.

(** C5, as the code has it: for a limit that is not negative, the result has
    at most [limit] entries, none empty, each ending in one of the five
    TLDs, no two equal; each keyword-plus-suffix name is the name of at
    most one entry, and of exactly one when the limit is at least 30, the
    number of names that can be built. *)
Theorem generate_structure order rnd keyword limit :
  (∀ X, order X ≡ₚ elements X) →
  (0 ≤ limit)%Z →
  let k := App.sanitize_word keyword in
  let out := App.generate_domain_ideas order rnd keyword limit in
  length out ≤ Z.to_nat limit
  ∧ Forall (λ e, e ≠ "" ∧ ∃ tld, tld ∈ App.TLDS ∧ ends_with e tld) out
  ∧ NoDup out
  ∧ (∀ suf tld tld' i j,
       suf ∈ App.SUFFIXES → tld ∈ App.TLDS → tld' ∈ App.TLDS →
       out !! i = Some ((k +:+ suf) +:+ tld) →
       out !! j = Some ((k +:+ suf) +:+ tld') →
       i = j)
  ∧ ((30 ≤ limit)%Z →
     ∀ suf, suf ∈ App.SUFFIXES →
            ∃ i tld, tld ∈ App.TLDS ∧ out !! i = Some ((k +:+ suf) +:+ tld)).
Proof.
  intros Horder Hlimit k out.
  assert (∀ suf, suf ∈ App.SUFFIXES → dot_free (k +:+ suf) = true) as Hks.
  { intros suf Hsuf. unfold k.
    by rewrite dot_free_app, (sanitize_dot_free keyword), suffix_dot_free. }
  split_and!.
  - unfold out, App.generate_domain_ideas. rewrite length_imap.
    by apply slice_to_length.
  - apply Forall_lookup. intros i e (name & _ & ->)%out_lookup.
    pose proof (tld_choice (rnd (S i))) as Htld. split.
    + apply append_nonempty. by destruct (tlds_start_with_dot _ Htld) as [t ->].
    + eexists. split; [exact Htld|]. by exists name.
  - apply NoDup_alt. intros i j e Hi Hj.
    apply out_lookup in Hi as (ni & Hni & ->), Hj as (nj & Hnj & Heq).
    assert (ni = nj) as ->.
    { eapply fqdn_name_inj; [| |apply tld_choice|apply tld_choice|exact Heq];
        eapply names_dot_free, list_elem_of_lookup_2; eauto. }
    eapply NoDup_lookup; [by apply names_NoDup|exact Hni|exact Hnj].
  - intros suf tld tld' i j Hsuf Htld Htld' Hi Hj.
    apply out_name in Hi, Hj; auto.
    eapply NoDup_lookup; [by apply names_NoDup|exact Hi|exact Hj].
  - intros Hbig suf Hsuf.
    assert (k +:+ suf ∈ order (App.build_ideas k (rnd 0))) as Hin.
    { apply order_elem; [done|]. by apply keyword_suffix_candidate. }
    apply list_elem_of_lookup in Hin as [i Hi].
    exists i, (random_choice App.TLDS (rnd (S i))).
    split; [apply tld_choice|]. apply out_lookup. exists (k +:+ suf).
    split; [|done]. rewrite slice_to_all; [done|].
    pose proof (order_length order Horder rnd keyword) as Hlen. unfold k. lia.
Qed.

Lemma generate_structure_example :
  let out := App.generate_domain_ideas elements (λ n, n) "My Brand" 40 in
  length out ≤ 40
  ∧ NoDup out
  ∧ ∃ i tld, tld ∈ App.TLDS ∧ out !! i = Some (("mybrand" +:+ "app") +:+ tld).
Proof.
  destruct (generate_structure elements (λ n, n) "My Brand" 40
              (λ X, reflexivity (elements X)) ltac:(lia))
    as (Hlen & _ & Hnd & _ & Hall).
  split; [exact Hlen|]. split; [exact Hnd|].
  apply (Hall ltac:(lia) "app"). by repeat constructor.
Defined.

(** C5 as stated fails at the default limit: with Python iterating over the
    set in the order of [elements], no entry of [generate("Foo", 20)] is
    built from the name foonow; and a negative limit does not bound the
    number of entries. *)
Lemma truncation_drops_combinations :
  "now" ∈ App.SUFFIXES
  ∧ App.sanitize_word "Foo" = "foo"
  ∧ Forall (λ tld, ("foo" +:+ "now") +:+ tld
                   ∉ App.generate_domain_ideas elements (λ n, n) "Foo" 20)
           App.TLDS
  ∧ length (App.generate_domain_ideas elements (λ n, n) "Foo" (-1)) = 29.
Proof.
  split_and!; [by repeat constructor|done| |by vm_compute].
  apply (bool_decide_unpack _). by vm_compute.
Qed.

Lemma notify_request_handling_example :
  let w := example_world [] in
  App.dispatch
    (App.subscribe_for_notification obliging_oracle
       (JObj [("domain", JStr "example.com"); ("email", JNum 123)])) w
  = ({| App.status_code := 500; App.payload := [] |}, w)
  ∧ (∃ r w' ts,
       App.subscribe_for_notification obliging_oracle
         (JObj [("domain", JStr "example.com");
                ("email", JStr "user@test.com")]) w = (Returned r, w')
       ∧ App.status_code r = 200
       ∧ table w'
         = [{| row_id := 1; domain_name := "example.com";
               email := "user@test.com"; notified := false;
               created_at := ts; last_checked_at := None |}]
       ∧ txn w' = None)
  ∧ (∃ msg,
       App.subscribe_for_notification obliging_oracle
         (JObj [("domain", JStr "example.com");
                ("email", JStr "not-an-email")]) w
       = (Returned {| App.status_code := 400;
                      App.payload := [("error", msg)] |}, w))
  ∧ (∃ r w',
       App.dispatch
         (App.subscribe_for_notification store_down_oracle
            (JObj [("domain", JStr "example.com");
                   ("email", JStr "user@test.com")])) w = (r, w')
       ∧ App.status_code r = 500
       ∧ table w' = []
       ∧ txn w' = None).
Proof.
  intros w. split_and!.
  - exact (proj2 (proj1
             (notify_request_handling obliging_oracle
                (JObj [("domain", JStr "example.com"); ("email", JNum 123)])
                w)
             (or_intror eq_refl))).
  - exact (proj1 (proj2 (proj2
             (proj2
                (notify_request_handling obliging_oracle
                   (JObj [("domain", JStr "example.com");
                          ("email", JStr "user@test.com")]) w)
                "example.com" "user@test.com" eq_refl eq_refl)))
             eq_refl eq_refl).
  - exact (proj1
             (proj2
                (notify_request_handling obliging_oracle
                   (JObj [("domain", JStr "example.com");
                          ("email", JStr "not-an-email")]) w)
                "example.com" "not-an-email" eq_refl eq_refl)
             eq_refl).
  - exact (proj2 (proj2 (proj2
             (proj2
                (notify_request_handling store_down_oracle
                   (JObj [("domain", JStr "example.com");
                          ("email", JStr "user@test.com")]) w)
                "example.com" "user@test.com" eq_refl eq_refl)))
             eq_refl eq_refl).
Defined.

(** ** The alternative-suggestion flow *)

Lemma collect_results_omap pairs :
  App.collect_results pairs = omap entry_of pairs.
Proof.
  induction pairs as [|[alt resp] pairs IH]; [done|].
  simpl. unfold entry_of at 1. simpl.
  destruct resp as [e|body]; simpl; [done|].
  destruct (App.check_body (HttpBody body)); simpl; by rewrite IH.
Qed.

Lemma collect_results_all_raise alts es :
  App.collect_results (zip alts (HttpRaises <$> es)) = [].
Proof.
  revert es. induction alts as [|alt alts IH]; intros [|e es]; simpl; auto.
Qed.

Lemma app_check_body_reply (status : string) :
  App.check_body (whois_reply status)
  = Returned (eq_ignore_case (PyStr.strip status) "AVAILABLE").
Proof.
  unfold App.check_body, App.status_is_available, whois_reply, eq_ignore_case.
  simpl. f_equal. apply eqb_iff_eq. by apply lower_fold_case.
Qed.

Lemma iter_bump_table n w : table (Nat.iter n bump w) = table w.
Proof. induction n as [|n IH]; [done|]. simpl. exact IH. Qed.

(** C3, as the code has it: the candidates are the lower-cased label under
    every configured TLD but the one supplied; the call returns a list,
    whatever the provider does, and leaves the table alone. The list holds,
    in the order of the candidates, one entry for each candidate whose
    request was answered with a body the status could be read from, with
    the status it read; a candidate whose request raised has no entry.
    Only when no candidate gets an entry, as when every request raises, the
    list is all the candidates marked unavailable. *)
Theorem suggest_alternatives_result O cfg extract domain w :
  let alternatives := App.alternatives_of (extract domain) in
  let responses :=
    imap (λ i url, http_get O (tick w + i) url)
         (whois_url (App.WHOISXML_API_KEY cfg) <$> alternatives) in
  let unavailable :=
    (λ alt, {| App.fqdn := alt; App.available := false |}) <$> alternatives in
  alternatives
  = (λ tld, PyStr.lower (App.domain (extract domain)) +:+ tld)
    <$> filter (λ tld, tld ≠ "." +:+ App.suffix (extract domain)) App.TLDS
  ∧ (∃ w', App.suggest_alternatives O cfg extract domain w
           = (Returned (App.results_of alternatives responses), w')
           ∧ table w' = table w)
  ∧ App.results_of alternatives responses
    = match omap entry_of (zip alternatives responses) with
      | [] => unavailable
      | entries => entries
      end
  ∧ (∀ alt e, entry_of (alt, HttpRaises e) = None)
  ∧ (∀ alt status,
       entry_of (alt, whois_reply status)
       = Some {| App.fqdn := alt;
                 App.available :=
                   eq_ignore_case (PyStr.strip status) "AVAILABLE" |})
  ∧ (∀ es, App.results_of alternatives (HttpRaises <$> es) = unavailable).
Proof.
  intros alternatives responses unavailable. split_and!; try done.
  - eexists. split; [reflexivity|].
    apply iter_bump_table.
  - unfold App.results_of. rewrite collect_results_omap.
    by destruct (omap entry_of _).
  - intros alt status. unfold entry_of. cbn [fst snd].
    by rewrite app_check_body_reply.
  - intros es. unfold App.results_of. by rewrite collect_results_all_raise.
Qed.

(** C3 as stated fails: of the four candidates for example.com, the one
    whose request times out is missing from the result. *)
Lemma failed_candidate_is_dropped :
  App.alternatives_of (example_extract "example.com")
  = ["example.io"; "example.co"; "example.xyz"; "example.net"]
  ∧ (App.suggest_alternatives first_request_times_out example_app_config
       example_extract "example.com" (example_world [])).1
    = Returned [ {| App.fqdn := "example.co"; App.available := true |};
                 {| App.fqdn := "example.xyz"; App.available := true |};
                 {| App.fqdn := "example.net"; App.available := true |} ].
Proof. split; reflexivity. Qed.

(** ** Configuration *)

Lemma sleeps_app a b : sleeps (a ++ b) = sleeps a ++ sleeps b.
Proof. apply omap_app. Qed.

Lemma run_of_sleeps rs t o t' evs : run_of rs t o t' evs → sleeps evs = [].
Proof.
  induction 1 as [t|rec rs t|rec rs v t o t' evs Hv _ IH]; [done..|].
  rewrite sleeps_app, IH. by destruct v.
Qed.

Lemma cycle_of_sleeps t o t' evs : cycle_of t o t' evs → sleeps evs = [].
Proof. intros [(_ & _ & ->)|H]; [done|by eapply run_of_sleeps]. Qed.

Lemma loop_of_sleeps secs n t o t' evs :
  loop_of secs n t o t' evs → Forall (λ s, s = secs) (sleeps evs).
Proof.
  induction 1 as [t|n t e t' evs Hc|n t t1 evs1 o t' evs Hc _ IH].
  - constructor.
  - by rewrite (cycle_of_sleeps _ _ _ _ Hc).
  - rewrite sleeps_app, (cycle_of_sleeps _ _ _ _ Hc). simpl. by constructor.
Qed.

(** C8: the pause between two cycles is the literal 30 (seconds), whatever
    the configuration and the environment say, also when the environment
    sets a poll interval; it is not six hours. Every pause of a run of the
    poller lasts that long. *)
Theorem poll_interval_hardcoded O cfg env n w :
  Notifier.sleep_seconds cfg env = 30%Z
  ∧ Notifier.sleep_seconds cfg (<["POLL_INTERVAL" := "21600"]> env) = 30%Z
  ∧ Notifier.sleep_seconds cfg env ≠ (6 * 60 * 60)%Z
  ∧ Forall (λ secs, secs = 30%Z)
      (sleeps (drop (length (trace w))
                    (trace (Notifier.main_loop O cfg env n w).2))).
Proof.
  split_and!; try done.
  destruct (main_loop_run O cfg env n w) as (o & w' & evs & Hrun & Htr & Hloop & _).
  rewrite Hrun. simpl. rewrite Htr, drop_app_length.
  by apply loop_of_sleeps in Hloop.
Qed.

(** With a poll interval of six hours in the environment, the poller still
    pauses for 30 seconds. *)
Example poll_interval_ignored :
  trace (Notifier.main_loop obliging_oracle example_notifier_config
           {[ "POLL_INTERVAL" := "21600" ]} 1 (example_world [])).2
  = [EvSleep 30].
Proof. reflexivity. Qed.

Lemma getenv_delete env k : getenv (delete k env) k = None.
Proof. apply lookup_delete_eq. Qed.

(** C9: without the API key in the environment (or with an empty one) the
    API process raises [ValueError] while it is imported, before any
    database call; the notifier process reads its configuration without
    complaint and goes on with no key, which it then formats as the text
    None into the URL of every request. *)
Theorem missing_api_key O py_int env w :
  App.load_config (delete "WHOISXML_API_KEY" env) = Raised ValueError
  ∧ App.load_config (<["WHOISXML_API_KEY" := ""]> env) = Raised ValueError
  ∧ App.startup O (delete "WHOISXML_API_KEY" env) w = (Raised ValueError, w)
  ∧ (∃ cfg,
       Notifier.startup py_int
         (delete "EMAIL_PORT" (delete "WHOISXML_API_KEY" env)) = Returned cfg
       ∧ Notifier.WHOISXML_API_KEY cfg = None
       ∧ whois_url (format_opt (Notifier.WHOISXML_API_KEY cfg)) "example.com"
         = "https://domain-availability.whoisxmlapi.com/api/v1?apiKey=None&domainName=example.com&outputFormat=JSON").
Proof.
  split_and!.
  - unfold App.load_config. by rewrite getenv_delete.
  - unfold App.load_config, getenv. by rewrite lookup_insert_eq.
  - unfold App.startup, App.load_config. by rewrite getenv_delete.
  - unfold Notifier.startup, Notifier.load_config.
    rewrite getenv_delete. simpl. eexists. split; [reflexivity|]. simpl.
    unfold getenv. rewrite lookup_delete_ne, lookup_delete_eq; done.
Qed.

(** The notifier started in an empty environment. *)
Example notifier_starts_without_key py_int :
  Notifier.WHOISXML_API_KEY <$> (Some (returned_or example_notifier_config
                                         (Notifier.startup py_int ∅)))
  = Some None.
Proof. reflexivity. Qed.

(** * Properties beyond the claims *)

(** ** The pattern of [/notify] *)

Lemma append_empty_inv (a b : string) : a +:+ b = "" → a = "" ∧ b = "".
Proof. by destruct a, b. Qed.

Lemma nullable_complete r s : Re.matches r s → s = "" → Re.nullable r = true.
Proof.
  induction 1 as [|c|c d Hd|r1 r2 s1 s2 _ IH1 _ IH2|r1 r2 s _ IH|r1 r2 s _ IH
                 |r s _ IH|r s1 s2 _ IH1 _ IH2]; simpl.
  - done.
  - done.
  - done.
  - intros [-> ->]%append_empty_inv. by rewrite IH1, IH2.
  - intros ->. by rewrite IH.
  - intros ->. rewrite IH; [apply orb_true_r|done].
  - done.
  - intros [-> _]%append_empty_inv. auto.
Qed.

Lemma deriv_complete r t :
  Re.matches r t → ∀ a s, t = String a s → Re.matches (Re.deriv a r) s.
Proof.
  induction 1 as [|c|c d Hd|r1 r2 s1 s2 H1 IH1 H2 IH2|r1 r2 s _ IH|r1 r2 s _ IH
                 |r s _ IH|r s1 s2 H1 IH1 H2 IH2]; intros a s0 Heq; simpl.
  - done.
  - injection Heq as <- <-. rewrite Ascii.eqb_refl. constructor.
  - injection Heq as <- <-.
    destruct (Ascii.eqb_spec d c) as [|_]; [done|constructor].
  - destruct s1 as [|x s1].
    + change ("" +:+ s2) with s2 in Heq.
      rewrite (nullable_complete r1 "" H1 eq_refl).
      apply Re.m_alt_r. auto.
    + change (String x s1 +:+ s2) with (String x (s1 +:+ s2)) in Heq.
      injection Heq as -> <-.
      assert (Re.matches (Re.Cat (Re.deriv a r1) r2) (s1 +:+ s2)) as Hcat.
      { apply Re.m_cat; auto. }
      destruct (Re.nullable r1); [by apply Re.m_alt_l|done].
  - apply Re.m_alt_l. auto.
  - apply Re.m_alt_r. auto.
  - apply Re.m_alt_l. auto.
  - destruct s1 as [|x s1].
    + change ("" +:+ s2) with s2 in Heq. by apply IH2.
    + change (String x s1 +:+ s2) with (String x (s1 +:+ s2)) in Heq.
      injection Heq as -> <-.
      apply Re.m_alt_r, Re.m_cat; auto.
Qed.

Lemma match_prefix_nullable r s :
  Re.nullable r = true → Re.match_prefix r s = true.
Proof. intros H. destruct s; simpl; by rewrite H. Qed.

Lemma match_prefix_complete r p q :
  Re.matches r p → Re.match_prefix r (p +:+ q) = true.
Proof.
  revert r. induction p as [|a p IH]; intros r Hp.
  - apply match_prefix_nullable. by eapply nullable_complete.
  - change (String a p +:+ q) with (String a (p +:+ q)). simpl.
    rewrite (IH (Re.deriv a r)); [apply orb_true_r|].
    by eapply deriv_complete.
Qed.

Lemma plus_notchr_intro c s :
  s ≠ "" → all_chars (λ d, negb (Ascii.eqb d c)) s = true →
  Re.matches (Re.Plus (Re.NotChr c)) s.
Proof.
  induction s as [|d s IH]; [done|]. intros _. simpl.
  intros [Hd Hs]%andb_prop. apply negb_true_iff in Hd.
  assert (Re.matches (Re.NotChr c) (String d "")) as Hone.
  { constructor. intros ->. by rewrite Ascii.eqb_refl in Hd. }
  destruct s as [|e s]; [by apply Re.m_plus_one|].
  apply (Re.m_plus_more _ (String d "") (String e s)); [done|]. by apply IH.
Qed.

Lemma plus_notchr_inv c s r :
  Re.matches r s → r = Re.Plus (Re.NotChr c) →
  s ≠ "" ∧ all_chars (λ d, negb (Ascii.eqb d c)) s = true.
Proof.
  induction 1 as [|?|? ? ?|? ? ? ? _ _ _ _|? ? ? _ _|? ? ? _ _
                 |r s H _|r s1 s2 H1 _ H2 IH2]; intros Hr; try done.
  - injection Hr as ->. inversion H as [| |? d Hd| | | | |]; subst. simpl.
    split; [done|]. rewrite andb_true_r. apply negb_true_iff.
    by destruct (Ascii.eqb_spec d c).
  - injection Hr as ->. destruct (IH2 eq_refl) as [Hne Hall].
    inversion H1 as [| |? d Hd| | | | |]; subst.
    change (String d "" +:+ s2) with (String d s2). simpl.
    split; [done|]. rewrite Hall, andb_true_r. apply negb_true_iff.
    by destruct (Ascii.eqb_spec d c).
Qed.

(** X1: the email check of [/notify] accepts exactly the strings that begin
    with a part without [@], an [@], a part without [@], a [.] and one more
    part without [@], each part non-empty; what follows is not looked at. *)
Theorem email_pattern_accepts e :
  Re.match_prefix App.EMAIL_RE e = true
  ↔ ∃ a b c rest,
      at_free_part a ∧ at_free_part b ∧ at_free_part c
      ∧ e = a +:+ "@" +:+ b +:+ "." +:+ c +:+ rest.
Proof.
  split.
  - intros (p & q & -> & Hp)%match_prefix_sound. unfold App.EMAIL_RE in Hp.
    inversion Hp as [| | |? ? s1 t1 Ha H1| | | |]; subst.
    inversion H1 as [| | |? ? s2 t2 H2 H3| | | |]; subst.
    inversion H2; subst.
    inversion H3 as [| | |? ? s3 t3 Hb H4| | | |]; subst.
    inversion H4 as [| | |? ? s4 t4 H5 Hc| | | |]; subst.
    inversion H5; subst.
    exists s1, s3, t4, q. split_and!.
    + by eapply plus_notchr_inv.
    + by eapply plus_notchr_inv.
    + by eapply plus_notchr_inv.
    + by rewrite !append_assoc.
  - intros (a & b & c & rest & [Ha Ha'] & [Hb Hb'] & [Hc Hc'] & ->).
    replace (a +:+ "@" +:+ b +:+ "." +:+ c +:+ rest)
      with ((a +:+ "@" +:+ b +:+ "." +:+ c) +:+ rest)
      by (by rewrite !append_assoc).
    apply match_prefix_complete. unfold App.EMAIL_RE.
    repeat apply Re.m_cat; try (by apply plus_notchr_intro); constructor.
Qed.

(** ** The keyword and the names built from it *)

Lemma all_chars_app p a b :
  all_chars p (a +:+ b) = all_chars p a && all_chars p b.
Proof.
  induction a as [|x a IH]; [done|].
  change (String x a +:+ b) with (String x (a +:+ b)).
  simpl. by rewrite IH, andb_assoc.
Qed.

Lemma all_chars_impl (p q : ascii → bool) s :
  (∀ c, p c = true → q c = true) →
  all_chars p s = true → all_chars q s = true.
Proof.
  intros Hpq. induction s as [|c s IH]; simpl; [done|].
  intros [Hc Hs]%andb_prop. by rewrite (Hpq c Hc), IH.
Qed.

Lemma filter_chars_all p s : all_chars p (PyStr.filter_chars p s) = true.
Proof.
  induction s as [|c s IH]; simpl; [done|].
  destruct (p c) eqn:Hc; [|done]. simpl. by rewrite Hc, IH.
Qed.

Lemma filter_chars_id p s :
  all_chars p s = true → PyStr.filter_chars p s = s.
Proof.
  induction s as [|c s IH]; simpl; [done|].
  intros [Hc Hs]%andb_prop. by rewrite Hc, IH.
Qed.

Lemma lower_id s : all_chars App.is_a_z_0_9 s = true → PyStr.lower s = s.
Proof.
  induction s as [|c s IH]; simpl; [done|].
  intros [Hc Hs]%andb_prop. rewrite IH by done. f_equal.
  revert Hc. destruct c as [[] [] [] [] [] [] [] []]; by vm_compute.
Qed.

Lemma class_not_space c : App.is_a_z_0_9 c = true → not_space c = true.
Proof. destruct c as [[] [] [] [] [] [] [] []]; by vm_compute. Qed.

(** X2: [sanitize_word] returns only characters of a-z and 0-9, and
    cleaning a cleaned word changes nothing. *)
Theorem sanitize_word_clean w :
  all_chars App.is_a_z_0_9 (App.sanitize_word w) = true
  ∧ App.sanitize_word (App.sanitize_word w) = App.sanitize_word w.
Proof.
  assert (all_chars App.is_a_z_0_9 (App.sanitize_word w) = true) as Hall.
  { apply filter_chars_all. }
  split; [done|]. revert Hall. generalize (App.sanitize_word w). intros k Hk.
  unfold App.sanitize_word.
  rewrite strip_not_space by (by eapply all_chars_impl, Hk; apply class_not_space).
  by rewrite lower_id, filter_chars_id.
Qed.

Lemma append_nil_r (s : string) : s +:+ "" = s.
Proof.
  induction s as [|c s IH]; [done|].
  change (String c s +:+ "") with (String c (s +:+ "")). by rewrite IH.
Qed.

Lemma char_count_app c a b :
  char_count c (a +:+ b) = char_count c a + char_count c b.
Proof.
  induction a as [|x a IH]; [done|].
  change (String x a +:+ b) with (String x (a +:+ b)).
  simpl. rewrite IH. lia.
Qed.

Lemma fixed_candidates_shapes k :
  fixed_candidates k = (λ ps, ps.1 +:+ k +:+ ps.2) <$> name_shapes.
Proof.
  unfold fixed_candidates, name_shapes.
  cbn [App.PREFIXES App.SUFFIXES take fmap list_fmap mbind list_bind app fst snd].
  by rewrite !append_nil_r.
Qed.

Lemma shape_signature_name k ps ps' :
  ps.1 +:+ k +:+ ps.2 = ps'.1 +:+ k +:+ ps'.2 →
  shape_signature ps = shape_signature ps'.
Proof.
  intros Heq. unfold shape_signature. apply list_fmap_ext. intros _ c _.
  apply (f_equal (char_count c)) in Heq.
  rewrite !char_count_app in Heq. lia.
Qed.

Lemma name_shapes_signatures : NoDup (shape_signature <$> name_shapes).
Proof. apply (bool_decide_unpack _). by vm_compute. Qed.

Lemma NoDup_fmap_inj_on {A B} (f : A → B) (l : list A) x y :
  NoDup (f <$> l) → x ∈ l → y ∈ l → f x = f y → x = y.
Proof.
  induction l as [|z l IH]; [by intros _ ?%elem_of_nil|].
  rewrite fmap_cons. intros [Hz Hnd]%NoDup_cons.
  intros [->|Hx]%elem_of_cons [->|Hy]%elem_of_cons Heq; try done.
  - destruct Hz. rewrite Heq. by apply list_elem_of_fmap_2.
  - destruct Hz. rewrite <-Heq. by apply list_elem_of_fmap_2.
  - by apply IH.
Qed.

Lemma fixed_candidates_NoDup k : NoDup (fixed_candidates k).
Proof.
  rewrite fixed_candidates_shapes.
  apply NoDup_fmap_2_strong; [|eapply NoDup_fmap_1, name_shapes_signatures].
  intros ps ps' Hps Hps' Heq.
  eapply NoDup_fmap_inj_on;
    [apply name_shapes_signatures|done..|by eapply shape_signature_name].
Qed.

Lemma build_ideas_list k r :
  App.build_ideas k r = list_to_set (fixed_candidates k).
Proof.
  apply set_eq. intros x.
  by rewrite build_ideas_elem, elem_of_list_to_set.
Qed.

Lemma build_ideas_size k r : size (App.build_ideas k r) = 30.
Proof.
  rewrite build_ideas_list, size_list_to_set by apply fixed_candidates_NoDup.
  done.
Qed.

(** X3: whatever the keyword, the generator builds exactly 30 different
    names, and the name with the randomly chosen suffix is always one of
    the others: the set of names does not depend on what is drawn. *)
Theorem thirty_names k r r' :
  size (App.build_ideas k r) = 30
  ∧ App.build_ideas k r = App.build_ideas k r'
  ∧ NoDup (fixed_candidates k)
  ∧ App.build_ideas k r = list_to_set (fixed_candidates k).
Proof.
  split_and!.
  - apply build_ideas_size.
  - by rewrite !build_ideas_list.
  - apply fixed_candidates_NoDup.
  - apply build_ideas_list.
Qed.

Lemma slice_to_exact_length {A} limit (l : list A) :
  length (slice_to limit l)
  = if (0 <=? limit)%Z then Z.to_nat limit `min` length l
    else length l - Z.to_nat (- limit).
Proof.
  unfold slice_to. destruct (0 <=? limit)%Z; rewrite length_take; lia.
Qed.

Lemma generate_length_eq order rnd keyword limit :
  (∀ X, order X ≡ₚ elements X) →
  length (App.generate_domain_ideas order rnd keyword limit)
  = if (0 <=? limit)%Z then Z.to_nat limit `min` 30
    else 30 - Z.to_nat (- limit).
Proof.
  intros Horder. unfold App.generate_domain_ideas.
  rewrite length_imap, slice_to_exact_length.
  assert (length (order (App.build_ideas (App.sanitize_word keyword) (rnd 0)))
          = 30) as ->; [|done].
  rewrite Horder. apply build_ideas_size.
Qed.

(** X4: when Python's iteration over a set enumerates it, the generator
    returns exactly [min(limit, 30)] entries for a limit that is not
    negative (20 for the default limit), and [30 - |limit|] entries, at
    least none, for a negative one. *)
Theorem generate_length order rnd keyword limit :
  (∀ X, order X ≡ₚ elements X) →
  length (App.generate_domain_ideas order rnd keyword limit)
  = if (0 <=? limit)%Z then Z.to_nat limit `min` 30
    else 30 - Z.to_nat (- limit).
Proof. apply generate_length_eq. Qed.

Lemma generate_length_default :
  length (App.generate_domain_ideas elements (λ n, 3 * n) "Acme Corp" 20) = 20.
Proof.
  exact (generate_length elements (λ n, 3 * n) "Acme Corp" 20
           (λ X, reflexivity (elements X))).
Defined.

Lemma fixed_candidates_hostname k :
  all_chars hostname_char k = true →
  Forall (λ x, all_chars hostname_char x = true) (fixed_candidates k).
Proof.
  intros Hk. unfold fixed_candidates.
  cbn [App.PREFIXES App.SUFFIXES take fmap list_fmap mbind list_bind app].
  repeat (apply Forall_cons; split; [by rewrite ?all_chars_app, ?Hk|]).
  constructor.
Qed.

Lemma tlds_hostname tld : tld ∈ App.TLDS → all_chars hostname_char tld = true.
Proof.
  unfold App.TLDS. intros H.
  repeat (apply elem_of_cons in H as [->|H]; [done|]).
  by apply elem_of_nil in H.
Qed.

(** X5: every entry the generator returns is one of the 30 names followed
    by one of the five TLDs; the name is what stands before the only dot,
    and the entry is written with a-z, 0-9, [-] and [.] alone. *)
Theorem generate_entries order rnd keyword limit :
  (∀ X, order X ≡ₚ elements X) →
  Forall (λ e, all_chars hostname_char e = true
               ∧ ∃ name tld,
                   name ∈ fixed_candidates (App.sanitize_word keyword)
                   ∧ tld ∈ App.TLDS ∧ e = name +:+ tld
                   ∧ before_dot e = name ∧ dot_free name = true)
         (App.generate_domain_ideas order rnd keyword limit).
Proof.
  intros Horder. apply Forall_lookup. intros i e (name & Hi & ->)%out_lookup.
  pose proof (tld_choice (rnd (S i))) as Htld.
  assert (name ∈ fixed_candidates (App.sanitize_word keyword)) as Hname.
  { apply (order_elem order Horder rnd).
    eapply elem_of_sublist; [|apply slice_to_sublist].
    by eapply list_elem_of_lookup_2. }
  assert (dot_free name = true) as Hdot.
  { eapply (names_dot_free order Horder), list_elem_of_lookup_2, Hi. }
  split.
  - rewrite all_chars_app, (tlds_hostname _ Htld), andb_true_r.
    pose proof (fixed_candidates_hostname (App.sanitize_word keyword)) as Hall.
    rewrite Forall_forall in Hall. apply Hall; [|done].
    eapply all_chars_impl; [|apply filter_chars_all].
    intros c Hc. unfold hostname_char. by rewrite Hc.
  - exists name, (random_choice App.TLDS (rnd (S i))). split_and!; try done.
    destruct (tlds_start_with_dot _ Htld) as [t ->]. by apply before_dot_app.
Qed.

Lemma generate_entries_example :
  Forall (λ e, all_chars hostname_char e = true
               ∧ ∃ name tld,
                   name ∈ fixed_candidates (App.sanitize_word "Foo-Bar 42!")
                   ∧ tld ∈ App.TLDS ∧ e = name +:+ tld
                   ∧ before_dot e = name ∧ dot_free name = true)
         (App.generate_domain_ideas elements (λ n, n) "Foo-Bar 42!" 20).
Proof.
  exact (generate_entries elements (λ n, n) "Foo-Bar 42!" 20
           (λ X, reflexivity (elements X))).
Defined.

(** ** The alternative-suggestion flow, further *)

Lemma filter_ne_length {A} `{EqDecision A} (x : A) (l : list A) :
  NoDup l →
  length (filter (λ y, y ≠ x) l)
  = length l - (if decide (x ∈ l) then 1 else 0).
Proof.
  induction l as [|y l IH]; [by intros _; case_decide|].
  intros [Hy Hnd]%NoDup_cons. specialize (IH Hnd).
  destruct (decide (y = x)) as [->|Hne].
  - rewrite filter_cons_False by (by intros []).
    rewrite decide_True by left. rewrite IH, decide_False by done.
    simpl. lia.
  - rewrite filter_cons_True by done. simpl. rewrite IH.
    destruct (decide (x ∈ l)) as [Hin|Hout].
    + rewrite decide_True by (by right).
      destruct l; [by apply elem_of_nil in Hin|simpl; lia].
    + rewrite decide_False; [lia|].
      intros [?|?]%elem_of_cons; by simplify_eq.
Qed.

Lemma tlds_NoDup : NoDup App.TLDS.
Proof. apply (bool_decide_unpack _). by vm_compute. Qed.

Lemma alternatives_length ext :
  length (App.alternatives_of ext)
  = (if decide ("." +:+ App.suffix ext ∈ App.TLDS) then 4 else 5).
Proof.
  unfold App.alternatives_of.
  rewrite length_fmap, (filter_ne_length ("." +:+ App.suffix ext))
    by apply tlds_NoDup.
  by case_decide.
Qed.

(** X6: the candidates are four when the suffix of the domain is one of
    the five TLDs and five otherwise; they are pairwise different, each is
    the lower-cased label under one of the TLDs, and the label under the
    suffix that was supplied is never among them. *)
Theorem alternatives_shape ext :
  let base := PyStr.lower (App.domain ext) in
  let supplied := "." +:+ App.suffix ext in
  length (App.alternatives_of ext)
  = (if decide (supplied ∈ App.TLDS) then 4 else 5)
  ∧ NoDup (App.alternatives_of ext)
  ∧ ((base +:+ supplied) ∉ App.alternatives_of ext)
  ∧ Forall (λ alt, ∃ tld, tld ∈ App.TLDS ∧ tld ≠ supplied ∧ alt = base +:+ tld)
           (App.alternatives_of ext).
Proof.
  intros base supplied. unfold App.alternatives_of. fold base supplied.
  split_and!.
  - apply alternatives_length.
  - apply NoDup_fmap_2; [apply String.app_inj|].
    apply NoDup_filter, tlds_NoDup.
  - intros (tld & Heq & [Hne _]%list_elem_of_filter)%list_elem_of_fmap.
    by apply String.app_inj in Heq.
  - apply Forall_fmap, Forall_forall.
    intros tld [Hne Hin]%list_elem_of_filter. by exists tld.
Qed.

Lemma entry_of_fqdn alt resp s : entry_of (alt, resp) = Some s → App.fqdn s = alt.
Proof.
  unfold entry_of. simpl. destruct (App.check_body resp); [|done].
  by intros [= <-].
Qed.

Lemma entries_sublist alts resps :
  App.fqdn <$> omap entry_of (zip alts resps) `sublist_of` alts.
Proof.
  revert resps. induction alts as [|alt alts IH]; intros [|resp resps];
    try apply sublist_nil_l.
  simpl. destruct (entry_of (alt, resp)) as [s|] eqn:Hs.
  - rewrite fmap_cons, (entry_of_fqdn _ _ _ Hs). apply sublist_skip, IH.
  - apply sublist_cons, IH.
Qed.

Lemma entries_available alts resps s :
  s ∈ omap entry_of (zip alts resps) → App.available s = true →
  ∃ i resp, alts !! i = Some (App.fqdn s) ∧ resps !! i = Some resp
            ∧ App.check_body resp = Returned true.
Proof.
  revert resps. induction alts as [|alt alts IH]; intros [|resp resps];
    try (by intros ?%elem_of_nil).
  simpl. intros Hin Hav. destruct (entry_of (alt, resp)) as [s'|] eqn:Hs.
  - apply elem_of_cons in Hin as [->|Hin].
    + exists 0, resp. rewrite (entry_of_fqdn _ _ _ Hs). split_and!; try done.
      unfold entry_of in Hs. simpl in Hs.
      destruct (App.check_body resp) as [b|]; [|done].
      injection Hs as <-. simpl in Hav. by rewrite Hav.
    + destruct (IH resps Hin Hav) as (i & r & ? & ? & ?). by exists (S i), r.
  - destruct (IH resps Hin Hav) as (i & r & ? & ? & ?). by exists (S i), r.
Qed.

Lemma iter_bump_tick n w : tick (Nat.iter n bump w) = tick w + n.
Proof. induction n as [|n IH]; simpl; [lia|]. rewrite IH. lia. Qed.

Lemma check_response_true r :
  App.check_body r = Returned true → App.check_response r = Returned true.
Proof. unfold App.check_response. by intros ->. Qed.

(** X7: the alternatives returned for a domain are never an empty list;
    their names are candidates, each at most once and in the order of the
    candidates; one request is made per candidate; and an alternative is
    marked available only if the provider's answer to the request for that
    very name reads as available. *)
Theorem suggest_alternatives_sound O cfg extract domain w :
  let alternatives := App.alternatives_of (extract domain) in
  ∃ res w',
    App.suggest_alternatives O cfg extract domain w = (Returned res, w')
    ∧ res ≠ []
    ∧ App.fqdn <$> res `sublist_of` alternatives
    ∧ NoDup (App.fqdn <$> res)
    ∧ tick w' = tick w + length alternatives
    ∧ trace w' = trace w
    ∧ Forall (λ s, App.available s = true →
                   ∃ i, alternatives !! i = Some (App.fqdn s)
                        ∧ App.check_response
                            (http_get O (tick w + i)
                               (whois_url (App.WHOISXML_API_KEY cfg) (App.fqdn s)))
                          = Returned true)
             res.
Proof.
  intros alternatives. unfold App.suggest_alternatives. fold alternatives.
  set (resps := imap (λ i url, http_get O (tick w + i) url)
                     (whois_url (App.WHOISXML_API_KEY cfg) <$> alternatives)).
  eexists _, _. split; [reflexivity|]. fold resps.
  assert (alternatives ≠ []) as Hne.
  { intros Hnil. pose proof (alternatives_length (extract domain)) as Hlen.
    fold alternatives in Hlen. rewrite Hnil in Hlen. simpl in Hlen.
    by case_decide. }
  assert (NoDup alternatives) as Hnd.
  { apply NoDup_fmap_2; [apply String.app_inj|].
    apply NoDup_filter, tlds_NoDup. }
  unfold App.results_of. rewrite collect_results_omap.
  pose proof (entries_sublist alternatives resps) as Hsub.
  pose proof (entries_available alternatives resps) as Hav.
  destruct (omap entry_of (zip alternatives resps)) as [|s0 entries] eqn:Hen.
  - split_and!.
    + by destruct alternatives.
    + rewrite <-list_fmap_compose. simpl.
      by rewrite list_fmap_id.
    + rewrite <-list_fmap_compose. simpl. by rewrite list_fmap_id.
    + simpl. rewrite iter_bump_tick, length_fmap. done.
    + simpl. clear. induction (length _) as [|n IH]; [done|]. by simpl.
    + apply Forall_fmap, Forall_forall. by intros alt _ [=].
  - split_and!; try done.
    + by eapply sublist_NoDup.
    + simpl. rewrite iter_bump_tick, length_fmap. done.
    + simpl. clear. induction (length _) as [|n IH]; [done|]. by simpl.
    + apply Forall_forall. intros s Hs Havail.
      destruct (Hav s Hs Havail) as (i & resp & Hi & Hr & Hbody).
      exists i. split; [done|]. apply check_response_true.
      unfold resps in Hr. rewrite list_lookup_imap, list_lookup_fmap, Hi in Hr.
      simpl in Hr. by injection Hr as <-.
Qed.

(** ** POST /check *)

Lemma check_each_run O cfg ds w :
  App.check_each O cfg ds w
  = (Returned
       (imap (λ i d, {| App.fqdn := d;
                        App.available :=
                          returned_or false
                            (App.check_body
                               (http_get O (tick w + i)
                                  (whois_url (App.WHOISXML_API_KEY cfg) d))) |})
             ds),
     Nat.iter (length ds) bump w).
Proof.
  revert w. induction ds as [|d ds IH]; intros w; [done|].
  simpl. unfold mbind, M_bind. rewrite app_check_run, IH. simpl.
  unfold mret, M_ret. rewrite Nat.add_0_r, <-Nat.iter_succ_r. simpl.
  do 3 f_equal. apply imap_ext. intros i x _. simpl.
  by rewrite Nat.add_succ_r.
Qed.

Lemma iter_bump_frame n w :
  table (Nat.iter n bump w) = table w ∧ txn (Nat.iter n bump w) = txn w
  ∧ next_id (Nat.iter n bump w) = next_id w
  ∧ trace (Nat.iter n bump w) = trace w
  ∧ tick (Nat.iter n bump w) = tick w + n.
Proof.
  induction n as [|n (?&?&?&?&?)]; simpl; [by rewrite Nat.add_0_r|].
  split_and!; try done. lia.
Qed.

(** What [/check] does once it has the input text, as one function of the
    text and the world. *)
Lemma check_text_run O cfg extract order rnd user_input w :
  ∃ r n,
    App.check_text O cfg extract order rnd user_input w
    = (Returned r, Nat.iter n bump w)
    ∧ (if PyStr.is_empty user_input then App.code r = 400 ∧ n = 0
       else
         App.code r = 200
         ∧ match App.classify_input extract user_input with
           | App.brand_keyword =>
               n = length (App.generate_domain_ideas order rnd user_input 20)
           | App.full_domain =>
               n = if returned_or false
                        (App.check_body
                           (http_get O (tick w)
                              (whois_url (App.WHOISXML_API_KEY cfg) user_input)))
                   then 1
                   else 1 + length (App.alternatives_of (extract user_input))
           end).
Proof.
  unfold App.check_text.
  destruct (PyStr.is_empty user_input);
    [eexists _, 0; split; [reflexivity|done]|].
  destruct (App.classify_input extract user_input).
  - unfold mbind, M_bind. rewrite app_check_run.
    destruct (returned_or false _);
      [eexists _, 1; split; [reflexivity|done]|].
    unfold App.suggest_alternatives, App.gather. simpl.
    eexists _, (S (length (App.alternatives_of (extract user_input)))).
    split; [rewrite length_fmap, Nat.iter_succ_r; reflexivity|done].
  - unfold mbind, M_bind. rewrite check_each_run.
    eexists _, _. split; [reflexivity|done].
Qed.

(** [/check] on a body whose input text can be read, and on one whose
    input text cannot. *)
Lemma check_domain_readable O cfg extract order rnd body w s :
  request_text body "input_text" = Some s →
  App.check_domain O cfg extract order rnd body w
  = App.check_text O cfg extract order rnd (PyStr.lower (PyStr.strip s)) w.
Proof.
  intros Hs. unfold App.check_domain, pureM, mbind, M_bind.
  by rewrite check_input_run, Hs.
Qed.

Lemma check_domain_unreadable O cfg extract order rnd body w :
  request_text body "input_text" = None →
  App.check_domain O cfg extract order rnd body w = (Raised AttributeError, w).
Proof.
  intros Hs. unfold App.check_domain, pureM, mbind, M_bind.
  by rewrite check_input_run, Hs.
Qed.

Lemma is_empty_lower s : PyStr.is_empty (PyStr.lower s) = PyStr.is_empty s.
Proof. by destruct s. Qed.

(** X8: what [/check] does with the body of a request, whatever JSON value
    it is. It never touches the notification store and logs no event. An
    input text that is not a string (a number, [true], an array or an
    object that is not empty), like a body that is not an object, raises
    [AttributeError] before anything else is done, which the framework
    answers with 500. A missing or blank input text is answered 400, again
    without a request to the provider. For every other input an answer of
    the view is a 200: 400 is the answer to a blank input only. *)
Theorem check_domain_safe O cfg extract order rnd body w :
  let out := App.check_domain O cfg extract order rnd body w in
  (table out.2 = table w ∧ txn out.2 = txn w ∧ next_id out.2 = next_id w
   ∧ trace out.2 = trace w)
  ∧ match request_text body "input_text" with
    | None => out = (Raised AttributeError, w)
    | Some s =>
        if PyStr.is_empty (PyStr.strip s)
        then out = (Returned
                      {| App.code := 400;
                         App.body := JObj [("error", JStr "input_text required")] |},
                    w)
        else ∀ r, out.1 = Returned r → App.code r = 200
    end.
Proof.
  intros out. unfold out.
  destruct (request_text body "input_text") as [s|] eqn:Hs.
  - rewrite (check_domain_readable _ _ _ _ _ _ _ _ Hs).
    destruct (check_text_run O cfg extract order rnd
                (PyStr.lower (PyStr.strip s)) w) as (r & n & Hrun & Hn).
    destruct (iter_bump_frame n w) as (? & ? & ? & ? & Htick).
    rewrite is_empty_lower in Hn.
    split; [by rewrite Hrun|].
    destruct (PyStr.is_empty (PyStr.strip s)) eqn:Hblank.
    + unfold App.check_text. by rewrite is_empty_lower, Hblank.
    + rewrite Hrun. cbn [fst]. destruct Hn as [Hcode _]. by intros ? [= <-].
  - rewrite (check_domain_unreadable _ _ _ _ _ _ _ Hs). done.
Qed.

(** X9: the number of requests [/check] makes to the provider: none when
    the input text cannot be read or is blank; for a keyword one per
    suggestion, which is 20; for a full domain one when it is available,
    and otherwise one more for each alternative, which makes five or
    six. *)
Theorem check_domain_requests O cfg extract order rnd body w :
  (∀ X, order X ≡ₚ elements X) →
  let w' := (App.check_domain O cfg extract order rnd body w).2 in
  tick w' - tick w
  = match request_text body "input_text" with
    | None => 0
    | Some s =>
        let user_input := PyStr.lower (PyStr.strip s) in
        if PyStr.is_empty user_input then 0
        else match App.classify_input extract user_input with
             | App.brand_keyword => 20
             | App.full_domain =>
                 if returned_or false
                      (App.check_response
                         (http_get O (tick w)
                            (whois_url (App.WHOISXML_API_KEY cfg) user_input)))
                 then 1
                 else if decide ("." +:+ App.suffix (extract user_input)
                                 ∈ App.TLDS)
                      then 5 else 6
             end
    end.
Proof.
  intros Horder w'. unfold w'.
  destruct (request_text body "input_text") as [s|] eqn:Hs;
    [|rewrite (check_domain_unreadable _ _ _ _ _ _ _ Hs); simpl; lia].
  rewrite (check_domain_readable _ _ _ _ _ _ _ _ Hs).
  set (user_input := PyStr.lower (PyStr.strip s)).
  destruct (check_text_run O cfg extract order rnd user_input w)
    as (r & n & -> & Hn).
  cbv zeta. fold user_input. cbn [snd].
  destruct (iter_bump_frame n w) as (_ & _ & _ & _ & ->).
  destruct (PyStr.is_empty user_input); [lia|]. destruct Hn as [_ Hn].
  destruct (App.classify_input extract user_input).
  - replace (returned_or false (App.check_response _))
      with (returned_or false
              (App.check_body
                 (http_get O (tick w)
                    (whois_url (App.WHOISXML_API_KEY cfg) user_input))))
      by (unfold App.check_response; by destruct (App.check_body _)).
    destruct (returned_or false _); [lia|].
    rewrite alternatives_length in Hn. case_decide; lia.
  - rewrite (generate_length_eq _ _ _ _ Horder) in Hn. simpl in Hn. lia.
Qed.

Lemma check_domain_requests_example :
  let w := example_world [] in
  let w' := (App.check_domain obliging_oracle example_app_config
               (λ s, {| App.subdomain := ""; App.domain := s; App.suffix := "" |})
               elements (λ n, n)
               (JObj [("input_text", JStr "  Acme ")]) w).2 in
  tick w' - tick w = 20.
Proof.
  exact (check_domain_requests obliging_oracle example_app_config
           (λ s, {| App.subdomain := ""; App.domain := s; App.suffix := "" |})
           elements (λ n, n) (JObj [("input_text", JStr "  Acme ")])
           (example_world []) (λ X, reflexivity (elements X))).
Defined.

(** X10: for a keyword, [/check] answers with one result per generated
    suggestion, in the order of the suggestions, and each result carries
    what the checker made of the provider's answer to the request for that
    suggestion, the i-th request of the call. *)
Theorem check_domain_keyword O cfg extract order rnd body s w :
  request_text body "input_text" = Some s →
  let user_input := PyStr.lower (PyStr.strip s) in
  PyStr.is_empty user_input = false →
  App.classify_input extract user_input = App.brand_keyword →
  ∃ results w',
    App.check_domain O cfg extract order rnd body w
    = (Returned
         {| App.code := 200;
            App.body :=
              JObj [("status", JStr "suggestions");
                    ("keyword", JStr user_input);
                    ("results", JArr (App.suggestion_json <$> results))] |},
       w')
    ∧ App.fqdn <$> results
      = App.generate_domain_ideas order rnd user_input 20
    ∧ ∀ i s, results !! i = Some s →
             Returned (App.available s)
             = App.check_response
                 (http_get O (tick w + i)
                    (whois_url (App.WHOISXML_API_KEY cfg) (App.fqdn s))).
Proof.
  intros Hs user_input Hne Hkw.
  rewrite (check_domain_readable _ _ _ _ _ _ _ _ Hs). fold user_input.
  unfold App.check_text.
  rewrite Hne, Hkw. unfold mbind, M_bind. rewrite check_each_run.
  eexists _, _. split; [reflexivity|]. split.
  - apply list_eq. intros i.
    rewrite list_lookup_fmap, list_lookup_imap.
    by destruct (_ !! i).
  - intros i s'. rewrite list_lookup_imap.
    destruct (_ !! i) as [d|]; [|done]. simpl. intros [= <-]. simpl.
    unfold App.check_response. by destruct (App.check_body _).
Qed.

Lemma check_domain_keyword_example :
  ∃ results w',
    App.check_domain obliging_oracle example_app_config
      (λ s, {| App.subdomain := ""; App.domain := s; App.suffix := "" |})
      elements (λ n, n) (JObj [("input_text", JStr "Acme")])
      (example_world [])
    = (Returned
         {| App.code := 200;
            App.body :=
              JObj [("status", JStr "suggestions");
                    ("keyword", JStr "acme");
                    ("results", JArr (App.suggestion_json <$> results))] |},
       w')
    ∧ App.fqdn <$> results
      = App.generate_domain_ideas elements (λ n, n) "acme" 20
    ∧ ∀ i s, results !! i = Some s →
             Returned (App.available s)
             = App.check_response
                 (http_get obliging_oracle (0 + i)
                    (whois_url "at_key" (App.fqdn s))).
Proof.
  exact (check_domain_keyword obliging_oracle example_app_config
           (λ s, {| App.subdomain := ""; App.domain := s; App.suffix := "" |})
           elements (λ n, n) (JObj [("input_text", JStr "Acme")]) "Acme"
           (example_world []) eq_refl eq_refl eq_refl).
Defined.

(** ** The two checkers side by side *)

(** X11: whenever the poller's checker says available, the checker of the
    API says available for the same answer of the provider: the poller
    never notifies about a domain that [/check] would report as taken. *)
Theorem poller_checker_is_stricter r :
  Notifier.check_response r = Returned true →
  App.check_response r = Returned true.
Proof.
  unfold Notifier.check_response, Notifier.check_body,
    App.check_response, App.check_body, App.status_is_available.
  destruct r as [e|[j|]]; simpl; try done.
  destruct j as [| | | | |fields]; simpl; try done.
  destruct (default (JObj []) (assoc "DomainInfo" fields))
    as [| | | | |info]; simpl; try done.
  destruct (default (JStr "UNKNOWN") (assoc "domainAvailability" info))
    as [| | |s| |]; simpl; try done.
  intros [= Hs]. by apply String.eqb_eq in Hs as ->.
Qed.

Lemma poller_checker_is_stricter_example :
  App.check_response (whois_reply "AVAILABLE") = Returned true.
Proof. exact (poller_checker_is_stricter (whois_reply "AVAILABLE") eq_refl). Defined.

(** ** The store under [/notify] and the poller *)

Lemma store_subscription_world O domain email w :
  let w' := (App.store_subscription O domain email w).2 in
  (table w' = table w ∧ next_id w ≤ next_id w')
  ∨ (∃ ts, table w' = table w ++ [new_row (next_id w) domain email ts]
           ∧ next_id w' = S (next_id w)).
Proof.
  unfold App.store_subscription.
  destruct (PyStr.is_empty _ || PyStr.is_empty _); [left; by simpl|].
  destruct (negb _); [left; by simpl|].
  unfold mbind, M_bind, try_finallyM, try_exceptM, Db.connect,
    Db.execute_insert, Db.commit, Db.rollback, Db.call. simpl.
  destruct (db_ok O (tick w)); simpl; [|left; by simpl].
  destruct (db_ok O (S (tick w))); simpl.
  - destruct (db_ok O (S (S (tick w)))); simpl.
    + right. by eexists.
    + destruct (db_ok O (S (S (S (tick w))))); simpl; left; (split; [done|lia]).
  - destruct (db_ok O (S (S (tick w)))); simpl; left; (split; [done|lia]).
Qed.

Lemma subscribe_world O body w :
  let w' := (App.subscribe_for_notification O body w).2 in
  (table w' = table w ∧ next_id w ≤ next_id w')
  ∨ (∃ d e ts, table w' = table w ++ [new_row (next_id w) d e ts]
               ∧ next_id w' = S (next_id w)).
Proof.
  destruct (request_text body "domain") as [d|] eqn:Hd;
    [|rewrite subscribe_unreadable by (by left); by left].
  destruct (request_text body "email") as [e|] eqn:He;
    [|rewrite subscribe_unreadable by (by right); by left].
  rewrite (subscribe_run O body w d e Hd He).
  destruct (store_subscription_world O (PyStr.lower (PyStr.strip d))
              (PyStr.lower (PyStr.strip e)) w) as [?|(ts & ? & ?)];
    [by left|right; by eexists _, _, _].
Qed.

Lemma store_ok_append w w' d e ts :
  store_ok w →
  table w' = table w ++ [new_row (next_id w) d e ts] →
  next_id w' = S (next_id w) → store_ok w'.
Proof.
  intros [Hpk Hlt] Htab Hid. unfold store_ok, primary_key in *.
  rewrite Htab, Hid, fmap_app. split.
  - apply NoDup_app. split_and!; [done| |apply NoDup_singleton].
    intros i (r & -> & Hr)%list_elem_of_fmap [= Heq]%list_elem_of_singleton.
    rewrite Forall_forall in Hlt. specialize (Hlt r Hr). simpl in Heq. lia.
  - apply Forall_app. split; [|by repeat constructor].
    eapply Forall_impl; [exact Hlt|]. simpl. lia.
Qed.

Lemma store_ok_frame w w' :
  store_ok w → Forall2 same_but_notified (table w) (table w') →
  next_id w ≤ next_id w' → store_ok w'.
Proof.
  intros [Hpk Hlt] Hf Hid. split; [by eapply frame_primary_key|].
  apply Forall_forall. intros r' Hr'.
  destruct (frame_elem_r _ _ _ Hf Hr') as (r & Hr & -> & _).
  rewrite Forall_forall in Hlt. specialize (Hlt r Hr). lia.
Qed.

(** X12: the store stays well formed (ids unique and below the next
    [AUTO_INCREMENT] value) under every [/notify] request, whatever its
    body is and however the database calls turn out, and under every run
    of the poller. *)
Theorem store_stays_well_formed O ncfg env n body w :
  store_ok w →
  store_ok (App.subscribe_for_notification O body w).2
  ∧ store_ok (Notifier.check_and_notify O ncfg w).2
  ∧ store_ok (Notifier.main_loop O ncfg env n w).2.
Proof.
  intros Hok. split_and!.
  - destruct (subscribe_world O body w) as [[Htab Hid]|(d & e & ts & Htab & Hid)].
    + eapply store_ok_frame; [exact Hok| |exact Hid].
      rewrite Htab. apply frame_refl.
    + by eapply store_ok_append.
  - destruct (check_and_notify_run O ncfg w) as (o & w' & evs & -> & _ & Hc & Hid).
    eapply store_ok_frame; [exact Hok| |simpl; lia].
    by eapply rows_step_frame, cycle_of_rows_step.
  - destruct (main_loop_run O ncfg env n w) as (o & w' & evs & -> & _ & Hl & Hid).
    eapply store_ok_frame; [exact Hok| |simpl; lia].
    by eapply rows_step_frame, loop_of_rows_step.
Qed.

Lemma store_stays_well_formed_example :
  let w := example_world [example_row 1 "example.com" "user@test.com" false] in
  store_ok w
  ∧ store_ok (App.subscribe_for_notification obliging_oracle
                (JObj [("domain", JStr "other.io");
                       ("email", JStr "me@test.com")]) w).2
  ∧ store_ok (Notifier.check_and_notify obliging_oracle
                example_notifier_config w).2
  ∧ store_ok (Notifier.main_loop obliging_oracle example_notifier_config
                ∅ 3 w).2.
Proof.
  intros w.
  assert (store_ok w) as Hok.
  { split; [apply NoDup_singleton|]. repeat constructor. }
  split; [exact Hok|].
  exact (store_stays_well_formed obliging_oracle example_notifier_config ∅ 3
           (JObj [("domain", JStr "other.io"); ("email", JStr "me@test.com")])
           w Hok).
Defined.

Lemma store_subscription_up O domain email w :
  (∀ k, db_ok O k = true) →
  negb (PyStr.is_empty domain) && negb (PyStr.is_empty email)
  && Re.match_prefix App.EMAIL_RE email = true →
  ∃ r,
    App.store_subscription O domain email w
    = (Returned r,
       {| table := table w
                   ++ [new_row (next_id w) domain email (now O (2 + tick w))];
          txn := None; next_id := S (next_id w); tick := 4 + tick w;
          trace := trace w ++ [EvInsert domain email] |})
    ∧ App.status_code r = 200.
Proof.
  intros Hdb [[Hd He]%andb_prop Hm]%andb_prop.
  unfold App.store_subscription.
  apply negb_true_iff in Hd, He. rewrite Hd, He, Hm. simpl.
  unfold mbind, M_bind, try_finallyM, try_exceptM, Db.connect,
    Db.execute_insert, Db.commit, Db.call. simpl.
  rewrite !Hdb. simpl. by eexists.
Qed.

(** X13: nothing keeps a signup from being stored twice: with the store
    up, the same accepted request made twice adds two rows, under two
    consecutive ids, that hold the same normalised domain and email and
    are both pending ([notified] false, never checked). *)
Theorem duplicate_signups O body d e w :
  request_text body "domain" = Some d →
  request_text body "email" = Some e →
  let domain := PyStr.lower (PyStr.strip d) in
  let email := PyStr.lower (PyStr.strip e) in
  (∀ k, db_ok O k = true) →
  negb (PyStr.is_empty domain) && negb (PyStr.is_empty email)
  && Re.match_prefix App.EMAIL_RE email = true →
  let w1 := (App.subscribe_for_notification O body w).2 in
  let w2 := (App.subscribe_for_notification O body w1).2 in
  ∃ ts1 ts2,
    table w2
    = table w ++ [{| row_id := next_id w; domain_name := domain;
                     email := email; notified := false;
                     created_at := ts1; last_checked_at := None |};
                  {| row_id := S (next_id w); domain_name := domain;
                     email := email; notified := false;
                     created_at := ts2; last_checked_at := None |}]
    ∧ next_id w2 = 2 + next_id w.
Proof.
  intros Hd He domain email Hdb Hacc w1 w2.
  unfold w2, w1. rewrite !(subscribe_run O body _ d e Hd He).
  fold domain email.
  destruct (store_subscription_up O domain email w Hdb Hacc) as (r1 & Hrun1 & _).
  rewrite Hrun1. cbn [snd].
  match goal with
  | |- context [App.store_subscription O domain email ?w1'] =>
      destruct (store_subscription_up O domain email w1' Hdb Hacc)
        as (r2 & Hrun2 & _)
  end.
  rewrite Hrun2. cbn [snd table next_id].
  eexists _, _. by rewrite <-app_assoc.
Qed.

Lemma duplicate_signups_example :
  let body := JObj [("domain", JStr "Example.com ");
                    ("email", JStr "User@Test.com")] in
  let w := example_world [] in
  let w1 := (App.subscribe_for_notification obliging_oracle body w).2 in
  let w2 := (App.subscribe_for_notification obliging_oracle body w1).2 in
  ∃ ts1 ts2,
    table w2
    = [{| row_id := 1; domain_name := "example.com";
          email := "user@test.com"; notified := false;
          created_at := ts1; last_checked_at := None |};
       {| row_id := 2; domain_name := "example.com";
          email := "user@test.com"; notified := false;
          created_at := ts2; last_checked_at := None |}]
    ∧ next_id w2 = 3.
Proof.
  exact (duplicate_signups obliging_oracle
           (JObj [("domain", JStr "Example.com ");
                  ("email", JStr "User@Test.com")])
           "Example.com " "User@Test.com"
           (example_world []) eq_refl eq_refl (λ _, eq_refl) eq_refl).
Defined.

Lemma one_row_cycle O cfg w r :
  (∀ k, db_ok O k = true) →
  pending_rows (table w) = [r] →
  Notifier.check_response
    (http_get O (2 + tick w)
       (whois_url (format_opt (Notifier.WHOISXML_API_KEY cfg)) (domain_name r)))
  = Returned true →
  smtp_send O (3 + tick w) (email r) (domain_name r) = Returned () →
  ∃ w', Notifier.check_and_notify O cfg w = (Returned (), w')
        ∧ table w' = mark_notified (row_id r) (table w)
        ∧ trace w' = trace w ++ check_then_send r ++ [EvUpdate (row_id r)].
Proof.
  intros Hdb Hpend Hc Hs.
  unfold Notifier.check_and_notify, Db.connect, Db.select_pending, Db.call.
  unfold mbind, M_bind; simpl. rewrite !Hdb. simpl.
  unfold view; simpl. rewrite Hpend. simpl.
  unfold Notifier.process_record, Notifier.check_domain_availability,
    Notifier.send_email_notification, mbind, M_bind; simpl.
  simpl in Hc, Hs. rewrite Hc; simpl. rewrite Hs; simpl.
  unfold Db.execute_update, Db.commit, Db.call; simpl. rewrite !Hdb; simpl.
  eexists. split; [reflexivity|]. simpl.
  split; [done|]. by rewrite <-!app_assoc.
Qed.

Lemma mark_notified_other i t :
  Forall (λ r, row_id r ≠ i) t → mark_notified i t = t.
Proof.
  induction 1 as [|r t Hr _ IH]; [done|].
  unfold mark_notified in *. rewrite fmap_cons, IH. by rewrite decide_False.
Qed.

(** X14: signing up and being notified, end to end. On a well-formed
    store without pending rows and with the store up, an accepted
    [/notify] request followed by one cycle of the poller in which the
    provider reports the domain as AVAILABLE and the mail goes out leaves
    exactly one new row, with the next id, the normalised domain and email
    and [notified] true, and does, in this order: the insert, the check of
    the domain, the send to the address, the update. *)
Theorem signup_then_notified O cfg body d e w :
  request_text body "domain" = Some d →
  request_text body "email" = Some e →
  let domain := PyStr.lower (PyStr.strip d) in
  let email := PyStr.lower (PyStr.strip e) in
  store_ok w →
  pending_rows (table w) = [] →
  (∀ k, db_ok O k = true) →
  negb (PyStr.is_empty domain) && negb (PyStr.is_empty email)
  && Re.match_prefix App.EMAIL_RE email = true →
  Notifier.check_response
    (http_get O (6 + tick w)
       (whois_url (format_opt (Notifier.WHOISXML_API_KEY cfg)) domain))
  = Returned true →
  smtp_send O (7 + tick w) email domain = Returned () →
  let w1 := (App.subscribe_for_notification O body w).2 in
  ∃ w2 ts,
    Notifier.check_and_notify O cfg w1 = (Returned (), w2)
    ∧ table w2
      = table w ++ [{| row_id := next_id w; domain_name := domain;
                       email := email; notified := true;
                       created_at := ts; last_checked_at := None |}]
    ∧ trace w2
      = trace w ++ [EvInsert domain email;
                    EvCheck (next_id w) domain true;
                    EvSend (next_id w) email domain true;
                    EvUpdate (next_id w)].
Proof.
  intros Hd He domain email [Hpk Hlt] Hidle Hdb Hacc Hc Hs w1.
  unfold w1. rewrite (subscribe_run O body w d e Hd He). fold domain email.
  destruct (store_subscription_up O domain email w Hdb Hacc) as (r1 & Hrun1 & _).
  rewrite Hrun1. cbn [snd].
  set (r := new_row (next_id w) domain email (now O (2 + tick w))).
  set (w1' := {| table := table w ++ [r]; txn := None;
                 next_id := S (next_id w); tick := 4 + tick w;
                 trace := trace w ++ [EvInsert domain email] |}).
  assert (pending_rows (table w1') = [r]) as Hpend.
  { simpl. unfold pending_rows in *. by rewrite filter_app, Hidle. }
  destruct (one_row_cycle O cfg w1' r Hdb Hpend Hc Hs)
    as (w2 & Hrun2 & Htab & Htr).
  exists w2, (now O (2 + tick w)). split; [exact Hrun2|].
  rewrite Htab, Htr. split.
  - simpl. unfold mark_notified. rewrite fmap_app. simpl.
    rewrite decide_True by done. f_equal.
    apply (mark_notified_other (next_id w)).
    eapply Forall_impl; [exact Hlt|]. simpl. lia.
  - simpl. by rewrite <-app_assoc.
Qed.

Lemma signup_then_notified_example :
  let body := JObj [("domain", JStr "example.com");
                    ("email", JStr "user@test.com")] in
  let w := example_world [example_row 1 "old.net" "old@test.com" true] in
  let w1 := (App.subscribe_for_notification obliging_oracle body w).2 in
  ∃ w2 ts,
    Notifier.check_and_notify obliging_oracle example_notifier_config w1
    = (Returned (), w2)
    ∧ table w2
      = [example_row 1 "old.net" "old@test.com" true;
         {| row_id := 2; domain_name := "example.com";
            email := "user@test.com"; notified := true;
            created_at := ts; last_checked_at := None |}]
    ∧ trace w2
      = [EvInsert "example.com" "user@test.com";
         EvCheck 2 "example.com" true;
         EvSend 2 "user@test.com" "example.com" true;
         EvUpdate 2].
Proof.
  refine (signup_then_notified obliging_oracle example_notifier_config
            (JObj [("domain", JStr "example.com");
                   ("email", JStr "user@test.com")])
            "example.com" "user@test.com"
            (example_world [example_row 1 "old.net" "old@test.com" true])
            eq_refl eq_refl _ eq_refl (λ _, eq_refl) eq_refl eq_refl eq_refl).
  split; [apply NoDup_singleton|]. repeat constructor.
Defined.

(** ** The poller, further *)

Lemma events_of_send_inv rec v pre rid e d ok k :
  events_of rec v = pre ++ EvSend rid e d ok :: k →
  rid = row_id rec ∧ e = email rec ∧ d = domain_name rec
  ∧ pre = [EvCheck rid d true]
  ∧ (ok = true → v = Notified ∧ k = [EvUpdate rid] ∨ v = StoreFailed ∧ k = []).
Proof.
  destruct v; simpl; intros H;
    destruct pre as [|? [|? [|? [|? pre]]]]; simplify_eq/=;
    split_and!; try done; intros _; first [by left|by right].
Qed.

Lemma run_of_send_inv rs t o t' evs pre rid e d ok post :
  run_of rs t o t' evs →
  evs = pre ++ EvSend rid e d ok :: post →
  ∃ r pre', r ∈ rs ∧ row_id r = rid ∧ email r = e ∧ domain_name r = d
            ∧ pre = pre' ++ [EvCheck rid d true].
Proof.
  intros Hrun. revert pre.
  induction Hrun as [t|rec rs t|rec rs v t o t' evs Hv Hrun IH]; intros pre Heq.
  - by destruct pre.
  - apply (events_of_send_inv rec StoreFailed) in Heq as (-> & -> & -> & -> & _).
    exists rec, []. split_and!; try done. left.
  - apply app_eq_app_cons in Heq as [(k & Hk & ->)|(k & -> & ->)].
    + apply events_of_send_inv in Hk as (-> & -> & -> & -> & _).
      exists rec, []. split_and!; try done. left.
    + destruct (IH k eq_refl) as (r & pre' & Hr & ? & ? & ? & ->).
      exists r, (events_of rec v ++ pre').
      split_and!; try done; [by right|by rewrite app_assoc].
Qed.

Lemma loop_of_send_inv secs n t o t' evs pre rid e d ok post :
  loop_of secs n t o t' evs →
  evs = pre ++ EvSend rid e d ok :: post →
  ∃ r pre', r ∈ t ∧ row_id r = rid ∧ email r = e ∧ domain_name r = d
            ∧ notified r = false ∧ pre = pre' ++ [EvCheck rid d true].
Proof.
  intros Hloop. revert pre.
  assert (∀ t o t' evs pre post,
            cycle_of t o t' evs → evs = pre ++ EvSend rid e d ok :: post →
            ∃ r pre', r ∈ t ∧ row_id r = rid ∧ email r = e ∧ domain_name r = d
                      ∧ notified r = false ∧ pre = pre' ++ [EvCheck rid d true])
    as Hcycle.
  { clear. intros t o t' evs pre post [(_ & _ & ->)|Hrun] Heq;
      [by destruct pre|].
    destruct (run_of_send_inv _ _ _ _ _ _ _ _ _ _ _ Hrun Heq)
      as (r & pre' & [Hr Hn]%pending_rows_elem & ? & ? & ? & ->).
    by exists r, pre'. }
  induction Hloop as [t|n t x t' evs Hc|n t t1 evs1 o t' evs Hc Hloop IH];
    intros pre Heq.
  - by destruct pre.
  - by eapply Hcycle.
  - pose proof (rows_step_frame _ _ _ (cycle_of_rows_step _ _ _ _ Hc)) as Hf.
    apply app_eq_app_cons in Heq as [(k & Hk & _)|(k & -> & Hk)].
    + by eapply Hcycle.
    + destruct k as [|ev k]; [done|]. injection Hk as <- Hk.
      destruct (IH k Hk) as (r1 & pre' & Hr1 & Hid & He & Hd & Hn & ->).
      destruct (frame_elem_r _ _ _ Hf Hr1)
        as (r & Hr & Hrid & Hrd & Hre & _ & _ & Hnot).
      exists r, (evs1 ++ EvSleep secs :: pre').
      split_and!.
      * done.
      * congruence.
      * congruence.
      * congruence.
      * destruct (notified r); [|done]. rewrite Hnot in Hn; done.
      * by rewrite <-app_assoc.
Qed.

(** X15: over any number of cycles, every attempt to send a mail comes
    right after a check that found the row's domain available, and goes to
    the email of a row that was pending when the poller started, about
    that row's domain: no mail without an available check. *)
Theorem no_mail_without_check O cfg env n w :
  ∃ o w' evs,
    Notifier.main_loop O cfg env n w = (o, w')
    ∧ trace w' = trace w ++ evs
    ∧ ∀ pre rid e d ok post,
        evs = pre ++ EvSend rid e d ok :: post →
        ∃ r pre', r ∈ table w ∧ row_id r = rid ∧ email r = e
                  ∧ domain_name r = d ∧ notified r = false
                  ∧ pre = pre' ++ [EvCheck rid d true].
Proof.
  destruct (main_loop_run O cfg env n w) as (o & w' & evs & Hrun & Htr & Hloop & _).
  exists o, w', evs. split_and!; try done.
  intros pre rid e d ok post Heq. by eapply loop_of_send_inv.
Qed.

Lemma mark_notified_keeps i t r :
  r ∈ t → row_id r ≠ i → r ∈ mark_notified i t.
Proof.
  intros Hr Hne. apply list_elem_of_fmap. exists r. by rewrite decide_False.
Qed.

Lemma run_of_send_then rs t o t' evs pre rid e d post :
  NoDup (row_id <$> rs) →
  Forall (λ rec, rec ∈ t ∧ notified rec = false) rs →
  run_of rs t o t' evs →
  evs = pre ++ EvSend rid e d true :: post →
  (∃ post', post = EvUpdate rid :: post')
  ∨ (post = [] ∧ o = Raised OperationalError
     ∧ ∃ r, r ∈ t' ∧ row_id r = rid ∧ notified r = false).
Proof.
  intros Hnd Hin Hrun. revert pre Hnd Hin.
  induction Hrun as [t|rec rs t|rec rs v t o t' evs Hv Hrun IH];
    intros pre Hnd Hin Heq.
  - by destruct pre.
  - apply (events_of_send_inv rec StoreFailed) in Heq as (-> & _ & _ & _ & Hk).
    destruct (Hk eq_refl) as [[[=] _]|[_ ->]].
    apply Forall_cons in Hin as [[Hrec Hn] _].
    right. split_and!; try done. by exists rec.
  - rewrite fmap_cons in Hnd. apply NoDup_cons in Hnd as [Hfresh Hnd].
    apply Forall_cons in Hin as [_ Hin].
    apply app_eq_app_cons in Heq as [(k & Hk & ->)|(k & -> & ->)].
    + apply events_of_send_inv in Hk as (_ & _ & _ & _ & Hk).
      destruct (Hk eq_refl) as [[_ ->]|[-> _]]; [|done].
      left. by eexists.
    + apply (IH k); [done| |done].
      apply Forall_forall. intros rec' Hrec'.
      rewrite Forall_forall in Hin. destruct (Hin rec' Hrec') as [Ht Hn].
      split; [|done]. destruct v; simpl; try done.
      apply mark_notified_keeps; [done|]. intros Heq. apply Hfresh.
      rewrite <-Heq. by apply list_elem_of_fmap_2.
Qed.

(** X16: in a cycle on a store with unique ids, a mail that went out is
    followed at once by the update of its row, unless the update or its
    commit fails: then the cycle ends there with the database error, and
    the row is still pending, so that a later run sends the mail again. *)
Theorem send_then_update_or_crash O cfg w :
  primary_key (table w) →
  ∃ o w' evs,
    Notifier.check_and_notify O cfg w = (o, w')
    ∧ trace w' = trace w ++ evs
    ∧ ∀ pre rid e d post,
        evs = pre ++ EvSend rid e d true :: post →
        (∃ post', post = EvUpdate rid :: post')
        ∨ (post = [] ∧ o = Raised OperationalError
           ∧ ∃ r, r ∈ table w' ∧ row_id r = rid ∧ notified r = false).
Proof.
  intros Hpk.
  destruct (check_and_notify_run O cfg w) as (o & w' & evs & Hrun & Htr & Hc & _).
  exists o, w', evs. split_and!; try done.
  intros pre rid e d post Heq.
  destruct Hc as [(_ & _ & ->)|Hc]; [by destruct pre|].
  eapply run_of_send_then; [by apply pending_rows_primary_key| |exact Hc|exact Heq].
  apply Forall_forall. by intros rec ?%pending_rows_elem.
Qed.

Lemma send_then_update_or_crash_example :
  let w := example_world [example_row 1 "example.com" "user@test.com" false] in
  ∃ o w' evs,
    Notifier.check_and_notify update_fails_oracle example_notifier_config w
    = (o, w')
    ∧ trace w' = trace w ++ evs
    ∧ ∀ pre rid e d post,
        evs = pre ++ EvSend rid e d true :: post →
        (∃ post', post = EvUpdate rid :: post')
        ∨ (post = [] ∧ o = Raised OperationalError
           ∧ ∃ r, r ∈ table w' ∧ row_id r = rid ∧ notified r = false).
Proof.
  refine (send_then_update_or_crash update_fails_oracle example_notifier_config
            (example_world [example_row 1 "example.com" "user@test.com" false])
            _).
  apply NoDup_singleton.
Defined.

(** The mail is out, the update fails: the cycle raises and the row is
    as it was. *)
Example mail_sent_row_still_pending :
  let w := example_world [example_row 1 "example.com" "user@test.com" false] in
  let run := Notifier.check_and_notify update_fails_oracle
               example_notifier_config w in
  run.1 = Raised OperationalError
  ∧ table run.2 = table w
  ∧ trace run.2 = [EvCheck 1 "example.com" true;
                   EvSend 1 "user@test.com" "example.com" true].
Proof. by vm_compute. Qed.

Lemma row_step_cases evs r r' :
  row_step evs r r' → r' = r ∨ EvUpdate (row_id r) ∈ evs.
Proof.
  intros [(Hid & Hd & He & Hc & Hl & _) Hflip].
  destruct (decide (notified r' = notified r)) as [Hn|Hn]; [left|right; auto].
  destruct r, r'; simpl in *. by subst.
Qed.

(** X17: with the store up, a pending row that a cycle did not update is
    still in the table unchanged and is checked again by the next cycle:
    a failed check or send is retried at the next tick. *)
Theorem pending_row_is_retried O cfg w r :
  (∀ k, db_ok O k = true) →
  r ∈ table w → notified r = false →
  ∃ w1 w2 evs1 evs2,
    Notifier.check_and_notify O cfg w = (Returned (), w1)
    ∧ Notifier.check_and_notify O cfg w1 = (Returned (), w2)
    ∧ trace w1 = trace w ++ evs1
    ∧ trace w2 = trace w1 ++ evs2
    ∧ (EvUpdate (row_id r) ∈ evs1
       ∨ (r ∈ table w1
          ∧ ∃ b, EvCheck (row_id r) (domain_name r) b ∈ evs2)).
Proof.
  intros Hdb Hr Hn.
  destruct (check_and_notify_run O cfg w) as (o1 & w1 & evs1 & Hrun1 & Htr1 & Hc1 & _).
  pose proof (check_and_notify_store_up O cfg w Hdb) as Ho1.
  rewrite Hrun1 in Ho1. simpl in Ho1. subst o1.
  destruct (check_and_notify_run O cfg w1) as (o2 & w2 & evs2 & Hrun2 & Htr2 & Hc2 & _).
  pose proof (check_and_notify_store_up O cfg w1 Hdb) as Ho2.
  rewrite Hrun2 in Ho2. simpl in Ho2. subst o2.
  exists w1, w2, evs1, evs2. split_and!; try done.
  apply list_elem_of_lookup in Hr as [i Hi].
  pose proof (cycle_of_rows_step _ _ _ _ Hc1) as Hstep.
  destruct (Forall2_lookup_l _ _ _ _ _ Hstep Hi) as (r' & Hi' & Hrr).
  destruct (row_step_cases _ _ _ Hrr) as [->|Hup]; [right|by left].
  assert (r ∈ table w1) as Hr1 by (by eapply list_elem_of_lookup_2).
  split; [done|].
  destruct Hc2 as [([=] & _)|Hc2].
  apply run_of_returned_checks in Hc2. rewrite Forall_forall in Hc2.
  apply Hc2, pending_rows_elem. done.
Qed.

Lemma pending_row_is_retried_example :
  let r := example_row 1 "taken.com" "first@test.com" false in
  let w := example_world [r; example_row 2 "free.io" "second@test.com" false] in
  ∃ w1 w2 evs1 evs2,
    Notifier.check_and_notify flaky_mail_oracle example_notifier_config w
    = (Returned (), w1)
    ∧ Notifier.check_and_notify flaky_mail_oracle example_notifier_config w1
      = (Returned (), w2)
    ∧ trace w1 = trace w ++ evs1
    ∧ trace w2 = trace w1 ++ evs2
    ∧ (EvUpdate (row_id r) ∈ evs1
       ∨ (r ∈ table w1
          ∧ ∃ b, EvCheck (row_id r) (domain_name r) b ∈ evs2)).
Proof.
  refine (pending_row_is_retried flaky_mail_oracle example_notifier_config
            (example_world [example_row 1 "taken.com" "first@test.com" false;
                            example_row 2 "free.io" "second@test.com" false])
            (example_row 1 "taken.com" "first@test.com" false)
            (λ _, eq_refl) _ eq_refl).
  left.
Defined.

(** X18: a cycle that finds no pending row does nothing but connect,
    select and close: no request to the provider, no mail, no write; the
    table and the trace are as before. *)
Theorem idle_cycle O cfg w :
  pending_rows (table w) = [] →
  ∃ o w',
    Notifier.check_and_notify O cfg w = (o, w')
    ∧ table w' = table w ∧ trace w' = trace w ∧ next_id w' = next_id w
    ∧ tick w' ≤ 3 + tick w
    ∧ (db_ok O (tick w) && db_ok O (1 + tick w) = true → o = Returned ()).
Proof.
  intros Hidle.
  unfold Notifier.check_and_notify, Db.connect, Db.select_pending, Db.call.
  unfold mbind, M_bind; simpl.
  destruct (db_ok O (tick w)); simpl;
    [|eexists _, _; split; [reflexivity|]; simpl; split_and!; try done; lia].
  destruct (db_ok O (S (tick w))); simpl;
    [|eexists _, _; split; [reflexivity|]; simpl; split_and!; try done; lia].
  unfold view; simpl. rewrite Hidle. simpl.
  eexists _, _. split; [reflexivity|]. simpl. split_and!; try done; lia.
Qed.

Lemma idle_cycle_example :
  let w := example_world [example_row 1 "example.com" "user@test.com" true] in
  ∃ o w',
    Notifier.check_and_notify obliging_oracle example_notifier_config w = (o, w')
    ∧ table w' = table w ∧ trace w' = trace w ∧ next_id w' = next_id w
    ∧ tick w' ≤ 3 + tick w
    ∧ (true = true → o = Returned ()).
Proof.
  exact (idle_cycle obliging_oracle example_notifier_config
           (example_world [example_row 1 "example.com" "user@test.com" true])
           eq_refl).
Defined.

(** ** Starting the API *)

(** X19: with a non-empty API key in the environment the API process
    starts when the three database calls of [init_db] succeed, with the
    key it was given and the documented defaults for the database
    settings that are missing, and raises the database error when one of
    the calls fails; in both cases the rows of the table, the next id and
    the trace are left as they were. *)
Theorem api_startup O env w key :
  env !! "WHOISXML_API_KEY" = Some key → key ≠ "" →
  ∃ o w',
    App.startup O env w = (o, w')
    ∧ table w' = table w ∧ next_id w' = next_id w ∧ trace w' = trace w
    ∧ (if db_ok O (tick w) && db_ok O (1 + tick w) && db_ok O (2 + tick w)
       then ∃ cfg, o = Returned cfg
                   ∧ App.WHOISXML_API_KEY cfg = key
                   ∧ App.DB_HOST cfg = default "localhost" (env !! "DB_HOST")
                   ∧ App.DB_USER cfg = default "root" (env !! "DB_USER")
                   ∧ App.DB_PASSWORD cfg = default "" (env !! "DB_PASSWORD")
                   ∧ App.DB_NAME cfg = default "domain_saas" (env !! "DB_NAME")
       else o = Raised OperationalError).
Proof.
  intros Hkey Hne. unfold App.startup, App.load_config, getenv. rewrite Hkey.
  assert (App.truthy (Some key) = true) as -> by (by destruct key).
  simpl. unfold App.init_db, mbind, M_bind, try_finallyM, Db.connect,
    Db.commit, Db.call. simpl.
  destruct (db_ok O (tick w)); simpl;
    [|eexists _, _; split; [reflexivity|]; by simpl].
  destruct (db_ok O (S (tick w))); simpl;
    [|eexists _, _; split; [reflexivity|]; by simpl].
  destruct (db_ok O (S (S (tick w)))); simpl;
    eexists _, _; (split; [reflexivity|]); simpl; split_and!; try done.
  by eexists.
Qed.

Lemma api_startup_example :
  ∃ o w',
    App.startup obliging_oracle {[ "WHOISXML_API_KEY" := "at_key" ]}
      (example_world []) = (o, w')
    ∧ table w' = [] ∧ next_id w' = 1 ∧ trace w' = []
    ∧ ∃ cfg, o = Returned cfg
             ∧ App.WHOISXML_API_KEY cfg = "at_key"
             ∧ App.DB_HOST cfg = "localhost"
             ∧ App.DB_USER cfg = "root"
             ∧ App.DB_PASSWORD cfg = ""
             ∧ App.DB_NAME cfg = "domain_saas".
Proof.
  exact (api_startup obliging_oracle {[ "WHOISXML_API_KEY" := "at_key" ]}
           (example_world []) "at_key" eq_refl ltac:(discriminate)).
Defined.

(** ** Normalising the input *)

Lemma lower_char_idem c : PyStr.lower_char (PyStr.lower_char c) = PyStr.lower_char c.
Proof. destruct c as [[] [] [] [] [] [] [] []]; reflexivity. Qed.

Lemma isspace_lower_char c : PyStr.isspace (PyStr.lower_char c) = PyStr.isspace c.
Proof. destruct c as [[] [] [] [] [] [] [] []]; reflexivity. Qed.

Lemma lower_idem s : PyStr.lower (PyStr.lower s) = PyStr.lower s.
Proof.
  induction s as [|c s IH]; simpl; [done|]. by rewrite lower_char_idem, IH.
Qed.

Lemma lstrip_lower s : PyStr.lstrip (PyStr.lower s) = PyStr.lower (PyStr.lstrip s).
Proof.
  induction s as [|c s IH]; simpl; [done|].
  rewrite isspace_lower_char. by destruct (PyStr.isspace c).
Qed.

Lemma rstrip_lower s : PyStr.rstrip (PyStr.lower s) = PyStr.lower (PyStr.rstrip s).
Proof.
  induction s as [|c s IH]; simpl; [done|].
  rewrite IH, isspace_lower_char.
  destruct (PyStr.rstrip s); simpl; [|done]. by destruct (PyStr.isspace c).
Qed.

Lemma rstrip_idem s : PyStr.rstrip (PyStr.rstrip s) = PyStr.rstrip s.
Proof.
  induction s as [|c s IH]; simpl; [done|].
  destruct (PyStr.rstrip s) as [|d t] eqn:Hs.
  - destruct (PyStr.isspace c) eqn:Hc; simpl; [done|]. by rewrite Hc.
  - simpl in *. by rewrite IH.
Qed.

Lemma lstrip_rstrip_lstrip s :
  PyStr.lstrip (PyStr.rstrip (PyStr.lstrip s)) = PyStr.rstrip (PyStr.lstrip s).
Proof.
  induction s as [|c s IH]; simpl; [done|].
  destruct (PyStr.isspace c) eqn:Hc; [done|]. simpl.
  destruct (PyStr.rstrip s); rewrite ?Hc; simpl; by rewrite Hc.
Qed.

Lemma strip_idem s : PyStr.strip (PyStr.strip s) = PyStr.strip s.
Proof. unfold PyStr.strip. by rewrite lstrip_rstrip_lstrip, rstrip_idem. Qed.

Lemma normalise_idem s :
  PyStr.lower (PyStr.strip (PyStr.lower (PyStr.strip s)))
  = PyStr.lower (PyStr.strip s).
Proof.
  unfold PyStr.strip at 1.
  rewrite lstrip_lower, rstrip_lower, lower_idem.
  change (PyStr.rstrip (PyStr.lstrip (PyStr.strip s)))
    with (PyStr.strip (PyStr.strip s)).
  by rewrite strip_idem.
Qed.

(** X20: the domain and the email that [/notify] stores are in normal
    form, without surrounding white space or capitals. A request leaves
    the table as it was or adds one pending row that holds the normalised
    domain and email; stripping and lower-casing these again gives the
    same strings, so that a request made with the stored values is
    handled exactly as the original one. *)
Theorem stored_values_normalised O body d e w :
  request_text body "domain" = Some d →
  request_text body "email" = Some e →
  let domain := PyStr.lower (PyStr.strip d) in
  let email := PyStr.lower (PyStr.strip e) in
  let w' := (App.subscribe_for_notification O body w).2 in
  (table w' = table w
   ∨ ∃ ts, table w'
           = table w ++ [{| row_id := next_id w; domain_name := domain;
                            email := email; notified := false;
                            created_at := ts; last_checked_at := None |}])
  ∧ PyStr.lower (PyStr.strip domain) = domain
  ∧ PyStr.lower (PyStr.strip email) = email
  ∧ App.subscribe_for_notification O
      (JObj [("domain", JStr domain); ("email", JStr email)]) w
    = App.subscribe_for_notification O body w.
Proof.
  intros Hd He domain email w'. split_and!.
  - unfold w'. rewrite (subscribe_run O body w d e Hd He). fold domain email.
    destruct (store_subscription_world O domain email w) as [[? _]|(ts & ? & _)];
      [by left|right; by exists ts].
  - apply normalise_idem.
  - apply normalise_idem.
  - rewrite (subscribe_run O body w d e Hd He).
    rewrite (subscribe_run O
               (JObj [("domain", JStr domain); ("email", JStr email)])
               w domain email eq_refl eq_refl).
    unfold domain, email. by rewrite !normalise_idem.
Qed.

Lemma stored_values_normalised_example :
  let body := JObj [("email", JStr " User@Test.COM"); ("plan", JNum 2);
                    ("domain", JStr "Example.com ")] in
  let w := example_world [] in
  let w' := (App.subscribe_for_notification obliging_oracle body w).2 in
  (table w' = []
   ∨ ∃ ts, table w'
           = [{| row_id := 1; domain_name := "example.com";
                 email := "user@test.com"; notified := false;
                 created_at := ts; last_checked_at := None |}])
  ∧ App.subscribe_for_notification obliging_oracle
      (JObj [("domain", JStr "example.com"); ("email", JStr "user@test.com")])
      w
    = App.subscribe_for_notification obliging_oracle body w.
Proof.
  intros body w w'.
  destruct (stored_values_normalised obliging_oracle body
              "Example.com " " User@Test.COM" w eq_refl eq_refl)
    as (Htab & _ & _ & Hsame).
  split; [exact Htab|exact Hsame].
Defined.

(** X21: the names of the entries the generator returns, read off before
    the dot, are the first [limit] names of the set in Python's iteration
    order; with a limit of 30 or more they are the 30 names, each once. *)
Theorem generate_names order rnd keyword limit :
  (∀ X, order X ≡ₚ elements X) →
  let k := App.sanitize_word keyword in
  let out := App.generate_domain_ideas order rnd keyword limit in
  before_dot <$> out = slice_to limit (order (App.build_ideas k (rnd 0)))
  ∧ ((30 ≤ limit)%Z → before_dot <$> out ≡ₚ fixed_candidates k).
Proof.
  intros Horder k out.
  assert (before_dot <$> out
          = slice_to limit (order (App.build_ideas k (rnd 0)))) as Hnames.
  { apply list_eq. intros i. rewrite list_lookup_fmap.
    unfold out, App.generate_domain_ideas. fold k.
    rewrite list_lookup_imap.
    destruct (slice_to limit _ !! i) as [name|] eqn:Hi; [|done]. simpl.
    f_equal. destruct (tlds_start_with_dot _ (tld_choice (rnd (S i)))) as [t ->].
    apply before_dot_app.
    eapply (names_dot_free order Horder), list_elem_of_lookup_2, Hi. }
  split; [done|]. intros Hbig. rewrite Hnames, slice_to_all.
  - rewrite Horder, build_ideas_list.
    apply elements_list_to_set, fixed_candidates_NoDup.
  - pose proof (order_length order Horder rnd keyword) as Hlen.
    fold k in Hlen. lia.
Qed.

Lemma generate_names_example :
  let out := App.generate_domain_ideas elements (λ n, n) "Acme" 30 in
  before_dot <$> out = slice_to 30 (elements (App.build_ideas "acme" 0))
  ∧ before_dot <$> out ≡ₚ fixed_candidates "acme".
Proof.
  destruct (generate_names elements (λ n, n) "Acme" 30
              (λ X, reflexivity (elements X))) as [Hnames Hperm].
  split; [exact Hnames|]. apply Hperm. lia.
Defined.

(** ** What ends the poller *)

Lemma run_of_outcome rs t o t' evs :
  run_of rs t o t' evs → o = Returned () ∨ o = Raised OperationalError.
Proof. induction 1; auto. Qed.

Lemma loop_of_outcome secs n t o t' evs :
  loop_of secs n t o t' evs → o = Returned () ∨ o = Raised OperationalError.
Proof.
  induction 1 as [t|n t e t' evs [(He & _)|Hc]|n t t1 evs1 o t' evs _ _ IH].
  - by left.
  - by right.
  - by apply run_of_outcome in Hc.
  - exact IH.
Qed.

Lemma main_loop_store_up O cfg env n w :
  (∀ k, db_ok O k = true) →
  (Notifier.main_loop O cfg env n w).1 = Returned ().
Proof.
  intros Hdb. revert w. induction n as [|n IH]; intros w; [done|].
  simpl. unfold mbind, M_bind.
  pose proof (check_and_notify_store_up O cfg w Hdb) as Hc.
  destruct (Notifier.check_and_notify O cfg w) as [o w1]. simpl in Hc. subst o.
  simpl. apply IH.
Qed.

Lemma loop_of_returned_sleeps secs n t t' evs :
  loop_of secs n t (Returned ()) t' evs → sleeps evs = replicate n secs.
Proof.
  intros Hloop. remember (Returned ()) as o eqn:Ho.
  induction Hloop as [t|n t e t' evs Hc|n t t1 evs1 o t' evs Hc _ IH];
    [done..|].
  rewrite sleeps_app, (cycle_of_sleeps _ _ _ _ Hc). simpl.
  by rewrite IH.
Qed.

(** X22: exceptions and the poller, in a run of any number of cycles in
    which every external call answers, by returning or by raising. (A call
    that never answers is outside the model; the SMTP connection is opened
    without a timeout, so a mail server that stays silent holds the poller
    up for good.) No exception other than a database error leaves the
    loop: the run returns or raises [OperationalError], whatever the
    provider answers and whatever the mail transport raises; when it
    returns it has paused once, for 30 seconds, after every cycle; and
    when no database call fails it returns. *)
Theorem poller_stops_on_store_failure_only O cfg env n w :
  ∃ o w' evs,
    Notifier.main_loop O cfg env n w = (o, w')
    ∧ trace w' = trace w ++ evs
    ∧ (o = Returned () ∨ o = Raised OperationalError)
    ∧ (o = Returned () → sleeps evs = replicate n 30%Z)
    ∧ ((∀ k, db_ok O k = true) → o = Returned ()).
Proof.
  destruct (main_loop_run O cfg env n w) as (o & w' & evs & Hrun & Htr & Hloop & _).
  exists o, w', evs. split_and!; try done.
  - by eapply loop_of_outcome.
  - intros ->. by apply loop_of_returned_sleeps in Hloop.
  - intros Hdb. pose proof (main_loop_store_up O cfg env n w Hdb) as Ho.
    by rewrite Hrun in Ho.
Qed.
